(** * Taxonomic multiclass crowdsourcing: the single-binomial model

    A shallow embedding of
    [annotations/classification/multiclass_single_binomial_tax.py]:
    the flat integer index of a taxonomy, the worker confusion
    structures [M] and [N], the label posterior of an image and the
    re-estimation of the worker skills.

    Conventions of the embedding.
    - Python and numpy floating point numbers are idealised as real
      numbers ([R]); [np.log] and [np.exp] are [ln] and [exp].
    - A Python exception (KeyError, IndexError, a failed [assert], an
      unbound name) is the result [None] of the option monad.
    - A [dict] is a [gmap]; an insertion ordered dict whose order matters
      ([image.z]) is an association list; a numpy array is a list, a
      matrix a list of rows.
    - The [Taxonomy] class lives in another file of the repository; its
      attributes and enumeration methods are the fields of a record. *)

From Stdlib Require Import Reals Lra Lia ZArith.
From stdpp Require Import gmap strings list.

(** ** Python idioms *)

(** [assert cond] *)
Definition py_assert (b : bool) : option unit :=
  if b then Some tt else None.

(** [enumerate(l)], counting from [start] *)
Definition enumerate_from {A} (start : nat) (l : list A) : list (nat * A) :=
  zip (seq start (length l)) l.

Definition enumerate {A} (l : list A) : list (nat * A) := enumerate_from 0 l.

(** [xrange(n)] *)
Definition xrange (n : nat) : list nat := seq 0 n.

(** ** The taxonomy (interface of [util.taxonomy]) *)

Record Node := {
  key : string;
  is_root : bool;
  is_leaf : bool;
  (** [node.parent.key]; [None] for the root *)
  parent : option string;
  (** the keys of [node.children], in iteration order *)
  children : list string;
  (** the keys of [node.ancestors]: the parent first, the root last *)
  ancestors : list string;
  (** [node.data['prob']] *)
  data_prob : R
}.

Record Taxonomy := {
  finalized : bool;
  priors_initialized : bool;
  nodes : gmap string Node;
  (** the result of [taxonomy.inner_nodes()] *)
  inner_nodes : list Node;
  (** the result of [taxonomy.leaf_nodes()] *)
  leaf_nodes : list Node;
  num_inner_nodes : nat;
  num_leaf_nodes : nat;
  max_depth : nat
}.

(** ** Integer ids of the nodes (initialize_data_structures, first part) *)

Record IdMaps := {
  orig_node_key_to_integer_id : gmap string nat;
  integer_id_to_orig_node_key : gmap nat string;
  leaf_integer_ids : list nat;
  leaf_node_key_set : gset string;
  ids_num_inner_nodes : nat
}.

(** The body of the first [for i, node in enumerate(...)] loop.  The
    third component is the loop variable [i], unbound before the first
    iteration. *)
Definition record_inner_id
    (st : gmap string nat * gmap nat string * option nat) (b : nat * Node)
    : gmap string nat * gmap nat string * option nat :=
  let '(k2i, i2k, _) := st in
  (<[key b.2 := b.1]> k2i, <[b.1 := key b.2]> i2k, Some b.1).

(** The body of the second loop, over the leaf nodes. *)
Definition record_leaf_id (id_offset : nat)
    (st : gmap string nat * gmap nat string * gset string * list nat)
    (b : nat * Node)
    : gmap string nat * gmap nat string * gset string * list nat :=
  let '(k2i, i2k, keyset, leaf_ids) := st in
  let integer_id := b.1 + id_offset in
  (<[key b.2 := integer_id]> k2i, <[integer_id := key b.2]> i2k,
   {[ key b.2 ]} ∪ keyset, leaf_ids ++ [integer_id]).

Definition assign_integer_ids (t : Taxonomy) : option IdMaps :=
  let '(k2i, i2k, last_i) :=
    foldl record_inner_id (∅, ∅, None) (enumerate (inner_nodes t)) in
  (* [num_inner_nodes = i + 1] raises NameError when the loop never ran *)
  i ← last_i;
  let num_inner := i + 1 in
  let id_offset := i + 1 in
  let '(k2i, i2k, keyset, leaf_ids) :=
    foldl (record_leaf_id id_offset) (k2i, i2k, ∅, [])
          (enumerate (leaf_nodes t)) in
  Some {| orig_node_key_to_integer_id := k2i;
          integer_id_to_orig_node_key := i2k;
          leaf_integer_ids := leaf_ids;
          leaf_node_key_set := keyset;
          ids_num_inner_nodes := num_inner |}.

(** [for x in l: st = f(st, x)] where the body may raise *)
Fixpoint foldlM {A B} (f : A → B → option A) (a : A) (l : list B) : option A :=
  match l with
  | [] => Some a
  | x :: l => a' ← f a x; foldlM f a' l
  end.

(** [l[:-1]] *)
Definition py_init {A} (l : list A) : list A := take (length l - 1) l.

(** [l[:n]] for a possibly negative [n] *)
Definition py_take {A} (n : Z) (l : list A) : list A :=
  if decide (0 ≤ n)%Z then take (Z.to_nat n) l
  else take (length l - Z.to_nat (- n)) l.

(** ** The flat index (initialize_data_structures) *)

Record FlatIndex := {
  id_maps :> IdMaps;
  leaf_node_keys : list string;
  node_priors : list R;
  parent_and_siblings_indices : list (list nat);
  parent_indices : list nat;
  class_node_index_list_padded_neg_1 : list (list Z);
  anno_node_index_list_padded_neg_2 : list (list Z);
  root_to_node_path_list : gmap nat (list nat);
  (** column [k] of the source's index arrays is the [k]-th tuple *)
  annotation_probs_insert_from_M : list (nat * nat * nat);
  annotation_probs_M_indices : list (nat * nat);
  annotation_probs_insert_from_N : list (nat * nat * nat);
  annotation_probs_N_indices : list nat;
  skill_vector_correct_read_indices : list nat;
  M_correct_rows : list nat;
  M_correct_cols : list nat;
  skill_vector_incorrect_read_indices : list nat;
  skill_vector_node_priors_read_indices : list nat;
  M_incorrect_rows : list nat;
  M_incorrect_cols : list nat;
  default_skill_vector : list R;
  pooled_prob_correct_vector : list R
}.

(** The keys in the order of their integer ids: inner nodes, then leaves. *)
Definition keys_by_id (t : Taxonomy) : list string :=
  key <$> (inner_nodes t ++ leaf_nodes t).

(** The nodes in the order of their integer ids. *)
Definition nodes_by_id (t : Taxonomy) : list Node :=
  inner_nodes t ++ leaf_nodes t.

(** What the model assumes of a finalized taxonomy: the two enumerations
    list each node of [nodes] once, the root first; the children of a
    node point back to it; the ancestors of a node are its parent
    followed by the ancestors of the parent. *)
Record taxonomy_wf (t : Taxonomy) : Prop := {
  wf_inner : inner_nodes t ≠ [];
  wf_keys : NoDup (keys_by_id t);
  wf_size : size (nodes t) = length (keys_by_id t);
  wf_nodes : ∀ nd, nd ∈ nodes_by_id t → nodes t !! key nd = Some nd;
  wf_root : ∀ i nd, nodes_by_id t !! i = Some nd → (is_root nd = true ↔ i = 0);
  wf_children_NoDup : ∀ nd, nd ∈ inner_nodes t → NoDup (children nd);
  wf_children_parent : ∀ nd c,
    nd ∈ inner_nodes t → c ∈ children nd →
    ∃ cn, cn ∈ nodes_by_id t ∧ key cn = c ∧ parent cn = Some (key nd);
  wf_ancestors : ∀ nd,
    nd ∈ nodes_by_id t →
    match parent nd with
    | None => ancestors nd = []
    | Some pk =>
        ∃ pn, pn ∈ inner_nodes t ∧ key pn = pk
              ∧ ancestors nd = pk :: ancestors pn
    end
}.

(** The node of an integer id: [taxonomy.nodes[integer_id_to_orig_node_key[i]]] *)
Definition node_of_id (t : Taxonomy) (ids : IdMaps) (integer_id : nat)
    : option Node :=
  k ← integer_id_to_orig_node_key ids !! integer_id;
  nodes t !! k.

Definition build_node_priors (t : Taxonomy) (ids : IdMaps) (num_nodes : nat)
    : option (list R) :=
  mapM (λ integer_id, node ← node_of_id t ids integer_id; Some (data_prob node))
       (xrange num_nodes).

Definition build_parent_and_siblings_indices (t : Taxonomy) (ids : IdMaps)
    : option (list (list nat)) :=
  mapM (λ integer_id,
          parent_node ← node_of_id t ids integer_id;
          sibling_integer_ids ←
            mapM (λ k, orig_node_key_to_integer_id ids !! k)
                 (children parent_node);
          Some (integer_id :: sibling_integer_ids))
       (xrange (ids_num_inner_nodes ids)).

Definition parent_indices_step (t : Taxonomy) (ids : IdMaps)
    (parent_indices : list nat) (integer_id : nat) : option (list nat) :=
  node ← node_of_id t ids integer_id;
  if is_root node then Some parent_indices
  else
    pk ← parent node;
    parent_integer_id ← orig_node_key_to_integer_id ids !! pk;
    Some (parent_indices ++ [parent_integer_id]).

Definition build_parent_indices (t : Taxonomy) (ids : IdMaps) (num_nodes : nat)
    : option (list nat) :=
  foldlM (parent_indices_step t ids) [] (xrange num_nodes).

(** [table[row, :len(path)] = path]: the row must exist and the path must
    fit in it. *)
Definition write_padded_row (table : list (list Z)) (row : nat)
    (path : list nat) : option (list (list Z)) :=
  old ← table !! row;
  if decide (length path ≤ length old) then
    Some (<[row := (Z.of_nat <$> path) ++ drop (length path) old]> table)
  else None.

Record PathTables := {
  pt_class : list (list Z);
  pt_anno : list (list Z);
  pt_root_to_node : gmap nat (list nat);
  pt_class_index : nat
}.

Definition path_step (t : Taxonomy) (ids : IdMaps) (st : PathTables)
    (integer_id : nat) : option PathTables :=
  node ← node_of_id t ids integer_id;
  let orig_path := reverse (ancestors node) ++ [key node] in
  integer_id_path ←
    mapM (λ k, orig_node_key_to_integer_id ids !! k) orig_path;
  _ ← (if decide (length (py_init integer_id_path) = 0) then Some tt
       else py_assert (bool_decide
              (max_list (py_init integer_id_path) < num_inner_nodes t)));
  anno ← write_padded_row (pt_anno st) integer_id integer_id_path;
  let rtn := <[integer_id := integer_id_path]> (pt_root_to_node st) in
  if is_leaf node then
    cls ← write_padded_row (pt_class st) (pt_class_index st) integer_id_path;
    Some {| pt_class := cls; pt_anno := anno; pt_root_to_node := rtn;
            pt_class_index := pt_class_index st + 1 |}
  else
    Some {| pt_class := pt_class st; pt_anno := anno; pt_root_to_node := rtn;
            pt_class_index := pt_class_index st |}.

Definition build_path_tables (t : Taxonomy) (ids : IdMaps) (num_nodes : nat)
    : option PathTables :=
  let num_classes := num_leaf_nodes t in
  let max_path_length := max_depth t + 1 in
  foldlM (path_step t ids)
    {| pt_class := replicate num_classes (replicate max_path_length (-1)%Z);
       pt_anno := replicate num_nodes (replicate max_path_length (-2)%Z);
       pt_root_to_node := ∅;
       pt_class_index := 0 |}
    (xrange num_nodes).

(** The precomputed positions at which [M] and [N] are copied into the
    annotation probability tensor. *)
Record ScatterLists := {
  sl_insert_from_M : list (nat * nat * nat);
  sl_M_indices : list (nat * nat);
  sl_insert_from_N : list (nat * nat * nat);
  sl_N_indices : list nat
}.

(** One iteration of the loop over the zipped paths of [y] and [z]. *)
Definition scatter_step (path_to_y path_to_z : list Z) (y z : nat)
    (st : ScatterLists) (b : nat * (Z * Z)) : option ScatterLists :=
  let '(i, (y_node_index, z_node_index)) := b in
  if decide (y_node_index = z_node_index) then
    y_node_child_index ← path_to_y !! (i + 1);
    z_node_child_index ← path_to_z !! (i + 1);
    _ ← py_assert (bool_decide (0 < y_node_child_index)%Z);
    _ ← py_assert (bool_decide (0 < z_node_child_index)%Z);
    Some {| sl_insert_from_M := sl_insert_from_M st ++ [(y, z, i)];
            sl_M_indices :=
              sl_M_indices st ++
                [(Z.to_nat y_node_child_index, Z.to_nat z_node_child_index)];
            sl_insert_from_N := sl_insert_from_N st;
            sl_N_indices := sl_N_indices st |}
  else if decide (0 ≤ z_node_index)%Z then
    z_node_child_index ← path_to_z !! (i + 1);
    _ ← py_assert (bool_decide (0 ≤ z_node_child_index)%Z);
    Some {| sl_insert_from_M := sl_insert_from_M st;
            sl_M_indices := sl_M_indices st;
            sl_insert_from_N := sl_insert_from_N st ++ [(y, z, i)];
            sl_N_indices := sl_N_indices st ++ [Z.to_nat z_node_child_index] |}
  else Some st.

Definition scatter_z (anno : list (list Z)) (path_to_y : list Z) (y : nat)
    (st : ScatterLists) (z : nat) : option ScatterLists :=
  path_to_z ← anno !! z;
  let z_depth := length (filter (λ x, (0 ≤ x)%Z) path_to_z) in
  let z_level := (Z.of_nat z_depth - 1)%Z in
  foldlM (scatter_step path_to_y path_to_z y z) st
         (enumerate (zip (py_take z_level path_to_y) (py_take z_level path_to_z))).

Definition scatter_y (cls anno : list (list Z)) (num_nodes : nat)
    (st : ScatterLists) (y : nat) : option ScatterLists :=
  path_to_y ← cls !! y;
  (* annotations at the root are ignored: z starts at 1 *)
  foldlM (scatter_z anno path_to_y y) st (seq 1 (num_nodes - 1)).

Definition build_scatter_lists (cls anno : list (list Z))
    (num_classes num_nodes : nat) : option ScatterLists :=
  foldlM (scatter_y cls anno num_nodes)
    {| sl_insert_from_M := []; sl_M_indices := [];
       sl_insert_from_N := []; sl_N_indices := [] |}
    (xrange num_classes).

(** The index arrays from which a worker's [M] matrix is filled. *)
Record MIndexLists := {
  mi_correct_read : list nat;
  mi_correct_rows : list nat;
  mi_correct_cols : list nat;
  mi_incorrect_read : list nat;
  mi_priors_read : list nat;
  mi_incorrect_rows : list nat;
  mi_incorrect_cols : list nat
}.

(** [for r in sibling_indices: for c in sibling_indices: if r == c: continue] *)
Definition incorrect_pairs (sibling_indices : list nat) : list (nat * nat) :=
  r ← sibling_indices;
  c ← sibling_indices;
  if decide (r = c) then [] else [(r, c)].

Definition M_index_step (st : MIndexLists) (node_indices : list nat)
    : option MIndexLists :=
  parent_index ← node_indices !! 0;
  let sibling_indices := drop 1 node_indices in
  let num_siblings := length sibling_indices in
  let pairs := incorrect_pairs sibling_indices in
  Some {| mi_correct_read :=
            mi_correct_read st ++ replicate num_siblings parent_index;
          mi_correct_rows := mi_correct_rows st ++ sibling_indices;
          mi_correct_cols := mi_correct_cols st ++ sibling_indices;
          mi_incorrect_read :=
            mi_incorrect_read st ++ ((λ _, parent_index) <$> pairs);
          mi_priors_read := mi_priors_read st ++ pairs.*2;
          mi_incorrect_rows := mi_incorrect_rows st ++ pairs.*1;
          mi_incorrect_cols := mi_incorrect_cols st ++ pairs.*2 |}.

Definition build_M_index_lists (parent_and_siblings : list (list nat))
    : option MIndexLists :=
  foldlM M_index_step
    {| mi_correct_read := []; mi_correct_rows := []; mi_correct_cols := [];
       mi_incorrect_read := []; mi_priors_read := [];
       mi_incorrect_rows := []; mi_incorrect_cols := [] |}
    parent_and_siblings.

(** ** The dataset *)

(** The attributes assigned by the constructor, and those of the base
    class that the model reads. *)
Record Dataset := {
  taxonomy : Taxonomy;
  class_probs : gmap string R;
  prob_correct_prior_beta : R;
  prob_correct_prior : R;
  prob_correct_beta : R;
  prob_correct : R;
  prob_trust_prior_beta : R;
  prob_trust_prior : R;
  prob_trust_beta : R;
  prob_trust : R;
  model_worker_trust : bool;
  recursive_trust : bool;
  naive_computer_vision : bool;
  min_risk : R
}.

Definition initialize_data_structures (d : Dataset) : option FlatIndex :=
  let t := taxonomy d in
  _ ← py_assert (finalized t);
  _ ← py_assert (priors_initialized t);
  ids ← assign_integer_ids t;
  let num_nodes := size (nodes t) in
  priors ← build_node_priors t ids num_nodes;
  pasi ← build_parent_and_siblings_indices t ids;
  pind ← build_parent_indices t ids num_nodes;
  let num_classes := num_leaf_nodes t in
  tables ← build_path_tables t ids num_nodes;
  sl ← build_scatter_lists (pt_class tables) (pt_anno tables)
                           num_classes num_nodes;
  mi ← build_M_index_lists pasi;
  Some {| id_maps := ids;
          leaf_node_keys := elements (leaf_node_key_set ids);
          node_priors := priors;
          parent_and_siblings_indices := pasi;
          parent_indices := pind;
          class_node_index_list_padded_neg_1 := pt_class tables;
          anno_node_index_list_padded_neg_2 := pt_anno tables;
          root_to_node_path_list := pt_root_to_node tables;
          annotation_probs_insert_from_M := sl_insert_from_M sl;
          annotation_probs_M_indices := sl_M_indices sl;
          annotation_probs_insert_from_N := sl_insert_from_N sl;
          annotation_probs_N_indices := sl_N_indices sl;
          skill_vector_correct_read_indices := mi_correct_read mi;
          M_correct_rows := mi_correct_rows mi;
          M_correct_cols := mi_correct_cols mi;
          skill_vector_incorrect_read_indices := mi_incorrect_read mi;
          skill_vector_node_priors_read_indices := mi_priors_read mi;
          M_incorrect_rows := mi_incorrect_rows mi;
          M_incorrect_cols := mi_incorrect_cols mi;
          default_skill_vector :=
            replicate (num_inner_nodes t) (1 * prob_correct d)%R;
          pooled_prob_correct_vector :=
            replicate (num_inner_nodes t) (1 * prob_correct_prior d)%R |}.

(** The object that workers, images and labels know as [self.params]. *)
Record Params := {
  dataset :> Dataset;
  flat_index :> FlatIndex
}.

(** ** Labels, images and workers *)

Record Label := {
  (** the id of [label.worker]; [None] for a predicted label *)
  worker : option string;
  label : string;
  (** the result of [anno.is_computer_vision()] *)
  is_computer_vision : bool;
  prob_prev_annos : option R
}.

(** [CrowdLabelMulticlassSingleBinomial(image=self, worker=None, label=l)] *)
Definition new_label (l : string) : Label :=
  {| worker := None; label := l; is_computer_vision := false;
     prob_prev_annos := None |}.

Record Image := {
  image_id : string;
  (** worker id to annotation, in insertion order *)
  z : list (string * Label);
  y : option Label;
  risk : R;
  finished : bool;
  (** the class probabilities of [cv_pred], when there is one *)
  cv_pred : option (gmap string R)
}.

Record Worker := {
  worker_id : string;
  skill_vector : option (list R);
  worker_prob_trust : R;
  (** the values of [worker.images], in iteration order *)
  images : list Image;
  prob : option R;
  skill : option (list R)
}.

(** [d[k]] on an insertion ordered dict *)
Definition odict_lookup {A} (k : string) (d : list (string * A)) : option A :=
  (λ r, r.2.2) <$> list_find (λ kv : string * A, kv.1 = k) d.

(** [d.keys().index(k)] *)
Definition odict_index {A} (k : string) (d : list (string * A)) : option nat :=
  fst <$> list_find (λ kv : string * A, kv.1 = k) d.

(** ** numpy idioms on one and two dimensional arrays *)

Local Open Scope R_scope.

(** [np.clip(x, a_min, a_max)] and [np.clip(x, a_min, None)] *)
Definition np_clip (x a_min a_max : R) : R := Rmin (Rmax x a_min) a_max.
Definition np_clip_min (x a_min : R) : R := Rmax x a_min.

(** [np.sum] of a vector *)
Definition np_sum (v : list R) : R := foldr Rplus 0 v.

(** [np.prod] of a vector *)
Definition np_prod (v : list R) : R := foldr Rmult 1 v.

(** Broadcasting of two vectors to a common length: equal lengths, or one
    of them of length one. *)
Definition np_broadcast_to {A} (n : nat) (v : list A) : option (list A) :=
  if decide (length v = n) then Some v
  else match v with
       | [x] => Some (replicate n x)
       | _ => None
       end.

Definition np_binop (f : R → R → R) (a b : list R) : option (list R) :=
  let n := if decide (length a = 1%nat) then length b else length a in
  a' ← np_broadcast_to n a;
  b' ← np_broadcast_to n b;
  Some (zip_with f a' b').

(** [v[idx]] for a list of indices *)
Definition fancy_read {A} (v : list A) (idx : list nat) : option (list A) :=
  mapM (λ i, v !! i) idx.

(** [v[i] = x] *)
Definition set1 {A} (v : list A) (i : nat) (x : A) : option (list A) :=
  _ ← v !! i; Some (<[i := x]> v).

(** [M[r, c] = x] *)
Definition set2 {A} (M : list (list A)) (r c : nat) (x : A)
    : option (list (list A)) :=
  row ← M !! r;
  row' ← set1 row c x;
  Some (<[r := row']> M).

(** [T[a, b, c] = x] *)
Definition set3 {A} (T : list (list (list A))) (a b c : nat) (x : A)
    : option (list (list (list A))) :=
  plane ← T !! a;
  plane' ← set2 plane b c x;
  Some (<[a := plane']> T).

Definition get2 {A} (M : list (list A)) (r c : nat) : option A :=
  row ← M !! r; row !! c.

Definition get3 {A} (T : list (list (list A))) (a b c : nat) : option A :=
  plane ← T !! a; get2 plane b c.

(** [v[idx] = vals]: the writes happen in order, the last one wins *)
Definition fancy_assign1 (v : list R) (idx : list nat) (vals : list R)
    : option (list R) :=
  vals' ← np_broadcast_to (length idx) vals;
  foldlM (λ v iv, set1 v iv.1 iv.2) v (zip idx vals').

(** [M[rows, cols] = vals] *)
Definition fancy_assign2 (M : list (list R)) (rows cols : list nat)
    (vals : list R) : option (list (list R)) :=
  let n := if decide (length rows = 1%nat) then length cols else length rows in
  rows' ← np_broadcast_to n rows;
  cols' ← np_broadcast_to n cols;
  vals' ← np_broadcast_to n vals;
  foldlM (λ M rcv, set2 M rcv.1.1 rcv.1.2 rcv.2) M (zip (zip rows' cols') vals').

(** A sequence of writes [M[r, c] = x], in order. *)
Definition writes2 {A} (M : list (list A)) (ws : list (nat * nat * A))
    : option (list (list A)) :=
  foldlM (λ M rcv, set2 M rcv.1.1 rcv.1.2 rcv.2) M ws.

(** ** The worker: confusion matrix and blind guess vector *)

Definition build_M (p : Params) (sv : list R) : option (list (list R)) :=
  let num_nodes := length (node_priors p) in
  let M := replicate num_nodes (replicate num_nodes 0) in
  (* the diagonals *)
  correct ← fancy_read sv (skill_vector_correct_read_indices p);
  M ← fancy_assign2 M (M_correct_rows p) (M_correct_cols p) correct;
  (* the off diagonals *)
  pc ← fancy_read sv (skill_vector_incorrect_read_indices p);
  let pnc := (λ x, 1 - x) <$> pc in
  pri ← fancy_read (node_priors p) (skill_vector_node_priors_read_indices p);
  ppnc ← np_binop Rmult pnc pri;
  fancy_assign2 M (M_incorrect_rows p) (M_incorrect_cols p) ppnc.

Definition build_N (p : Params) (sv : list R) : option (list R) :=
  let num_nodes := size (nodes (taxonomy p)) in
  (* the entry of the root node stays 1 *)
  let N := replicate num_nodes 1 in
  pc ← fancy_read sv (parent_indices p);
  let pnc := (λ x, 1 - x) <$> pc in
  ppnc ← np_binop Rmult (drop 1 (node_priors p)) pnc;
  (* N[1:] = ppnc *)
  tail ← np_broadcast_to (length (drop 1 N)) ppnc;
  Some (take 1 N ++ tail).

Definition build_M_and_N (p : Params) (w : Worker)
    : option (list (list R) * list R) :=
  sv ← skill_vector w;
  M ← build_M p sv;
  N ← build_N p sv;
  Some (M, N).

(** [a / b] on Python floats raises ZeroDivisionError when [b] is zero
    (a division of numpy arrays does not raise). *)
Definition py_div (a b : R) : option R :=
  if Req_dec_T b 0 then None else Some (a / b).

(** [math.log(x)] raises ValueError unless [x] is positive ([np.log] does
    not raise). *)
Definition math_log (x : R) : option R :=
  if Rlt_dec 0 x then Some (ln x) else None.

(** ** The worker: estimation of the skill parameters *)

(** [v[i] += 1] *)
Definition incr1 (v : list R) (i : nat) : option (list R) :=
  x ← v !! i; set1 v i (x + 1).

(** [v[idx] += 1] for a list of indices: numpy reads [v[idx]], adds one
    and writes the result back. *)
Definition fancy_incr (v : list R) (idx : list nat) : option (list R) :=
  old ← fancy_read v idx;
  fancy_assign1 v idx ((λ x, x + 1) <$> old).

(** The traversal of the two paths: the count of the parent is updated
    when the children match; the loop is left when the path of [z] is
    exhausted. *)
Fixpoint count_matching_children (y_node_list z_node_list : list nat)
    (child_node_indices : list nat) (skill_counts_num : list R)
    : option (list R) :=
  match child_node_indices with
  | [] => Some skill_counts_num
  | child_node_index :: rest =>
      y_parent_node ← y_node_list !! (child_node_index - 1)%nat;
      if decide (child_node_index < length z_node_list)%nat then
        y_node ← y_node_list !! child_node_index;
        z_node ← z_node_list !! child_node_index;
        skill_counts_num ←
          (if decide (y_node = z_node)
           then incr1 skill_counts_num y_parent_node
           else Some skill_counts_num);
        count_matching_children y_node_list z_node_list rest skill_counts_num
      else Some skill_counts_num (* break *)
  end.

(** One iteration of the first loop over the images of the worker; the
    state is [(skill_counts_num, skill_counts_denom)]. *)
Definition skill_counts_step (p : Params) (self_id : string)
    (st : list R * list R) (image : Image) : option (list R * list R) :=
  if decide (length (z image) ≤ 1)%nat then Some st (* continue *)
  else
    y_label ← y image;
    y_integer_id ← orig_node_key_to_integer_id p !! label y_label;
    anno ← odict_lookup self_id (z image);
    z_integer_id ← orig_node_key_to_integer_id p !! label anno;
    y_node_list ← root_to_node_path_list p !! y_integer_id;
    z_node_list ← root_to_node_path_list p !! z_integer_id;
    skill_counts_denom ← fancy_incr st.2 (py_init y_node_list);
    skill_counts_num ←
      count_matching_children y_node_list z_node_list
        (seq 1 (length y_node_list - 1)) st.1;
    Some (skill_counts_num, skill_counts_denom).

Definition skill_counts (p : Params) (w : Worker) : option (list R * list R) :=
  let zeros := replicate (length (pooled_prob_correct_vector p)) 0 in
  foldlM (skill_counts_step p (worker_id w)) (zeros, zeros) (images w).

(** The Beta smoothed estimate of the skill vector from the counts. *)
Definition skill_vector_of_counts (p : Params) (counts : list R * list R)
    : list R :=
  let num :=
    zip_with Rplus ((λ x, prob_correct_beta p * x) <$> pooled_prob_correct_vector p)
             counts.1 in
  let denom := (λ x, prob_correct_beta p + x) <$> counts.2 in
  let denom := (λ x, np_clip_min x 0.00000001) <$> denom in
  (λ x, np_clip x 0.00000001 0.99999) <$> zip_with Rdiv num denom.

(** The placeholder skill: the fraction of images on which the worker
    agrees with the predicted label. *)
Definition total_num_correct_step (self_id : string) (total : R)
    (image : Image) : option R :=
  y_label ← y image;
  anno ← odict_lookup self_id (z image);
  Some (if decide (label y_label = label anno) then total + 1 else total).

(** The trust counts, when each previous label is treated independently:
    the loop over [image.z] is left at the worker's own annotation. *)
Fixpoint independent_trust_counts (ncv : bool) (self_id our_label : string)
    (zs : list (string * Label)) (st : R * R) : R * R :=
  match zs with
  | [] => st
  | (prev_worker_id, prev_anno) :: rest =>
      if decide (prev_worker_id = self_id) then st (* break *)
      else
        let st :=
          if negb (is_computer_vision prev_anno) || ncv then
            (if decide (our_label = label prev_anno) then st.1 + 1 else st.1,
             st.2 + 1)
          else st in
        independent_trust_counts ncv self_id our_label rest st
  end.

(** One iteration of the loop that estimates the trust; the state is
    [(prob_trust_num, prob_trust_denom)]. *)
Definition trust_step (p : Params) (self_id : string) (st : R * R)
    (image : Image) : option (R * R) :=
  if recursive_trust p then
    our_t ← odict_index self_id (z image);
    if decide (0 < our_t)%nat then
      our_anno ← odict_lookup self_id (z image);
      prev ← z image !! (our_t - 1)%nat;
      Some (if decide (label our_anno = label prev.2) then st.1 + 1 else st.1,
            st.2 + 1)
    else Some st
  else
    our_anno ← odict_lookup self_id (z image);
    Some (independent_trust_counts (naive_computer_vision p) self_id
            (label our_anno) (z image) st).

Definition estimate_parameters (p : Params) (w : Worker) : option Worker :=
  counts ← skill_counts p w;
  let new_skill_vector := skill_vector_of_counts p counts in
  total_num_correct ←
    foldlM (total_num_correct_step (worker_id w)) 0 (images w);
  let new_prob := total_num_correct / Rmax 0.0001 (INR (length (images w))) in
  if model_worker_trust p then
    '(prob_trust_num, prob_trust_denom) ←
      foldlM (trust_step p (worker_id w))
             (prob_trust_beta p * prob_trust p, prob_trust_beta p) (images w);
    ratio ← py_div prob_trust_num prob_trust_denom;
    let new_trust := np_clip ratio 0.00000001 0.9999 in
    Some {| worker_id := worker_id w;
            skill_vector := Some new_skill_vector;
            worker_prob_trust := new_trust;
            images := images w;
            prob := Some new_prob;
            skill := Some [new_prob; new_trust] |}
  else
    Some {| worker_id := worker_id w;
            skill_vector := Some new_skill_vector;
            worker_prob_trust := worker_prob_trust w;
            images := images w;
            prob := Some new_prob;
            skill := Some [new_prob] |}.

(** [initialize_parameters] for one worker of [dataset.workers]; the
    [finished] flag of the worker is an attribute of the base class. *)
Definition initialize_parameters_worker (p : Params) (avoid_if_finished : bool)
    (worker_finished : bool) (w : Worker) : Worker :=
  if avoid_if_finished && worker_finished then w
  else
    {| worker_id := worker_id w;
       skill_vector := Some (default_skill_vector p);
       worker_prob_trust :=
         if model_worker_trust p then prob_trust p else worker_prob_trust w;
       images := images w;
       prob := prob w;
       skill := skill w |}.

(** ** The image: majority vote *)

(** The state of the generator behind [random.random()]: the numbers of
    [[0, 1)] that it returns from now on. *)
Definition RandomState : Type := nat → R.

Definition random_random (g : RandomState) : R * RandomState :=
  (g 0%nat, λ n, g (S n)).

(** [random.choice(seq)] is [seq[int(random() * len(seq))]] *)
Definition random_choice {A} (g : RandomState) (seq : list A)
    : option (A * RandomState) :=
  let '(u, g') := random_random g in
  x ← seq !! Z.to_nat (Int_part (u * INR (length seq)));
  Some (x, g').

(** [Counter(labels)] *)
Definition Counter (labels : list string) : gmap string nat :=
  foldl (λ m l, <[l := S (default 0%nat (m !! l))]> m) ∅ labels.

(** [votes.most_common(1)]: the first item, in the iteration order of the
    counter, that has the largest count.  The iteration order of a Python
    dict or set of strings is fixed by the keys but unspecified; the
    model takes the order of [map_to_list] and of [elements]. *)
Definition most_common_1 (votes : gmap string nat) : option (string * nat) :=
  foldl (λ best kv,
           match best with
           | None => Some kv
           | Some b => if decide (b.2 < kv.2)%nat then Some kv else Some b
           end)
        None (map_to_list votes).

Definition set_y (img : Image) (pred_y : string) : Image :=
  {| image_id := image_id img; z := z img; y := Some (new_label pred_y);
     risk := risk img; finished := finished img; cv_pred := cv_pred img |}.

Definition crowdsource_simple (p : Params) (avoid_if_finished : bool)
    (g : RandomState) (img : Image) : option (Image * RandomState) :=
  if avoid_if_finished && finished img then Some (img, g)
  else
    let labels :=
      filter (λ l, l ∈ leaf_node_key_set p) ((λ kv, label kv.2) <$> z img) in
    let votes := Counter labels in
    if decide (0 < size votes)%nat then
      top ← most_common_1 votes;
      Some (set_y img top.1, g)
    else
      (* randomly pick a label *)
      '(pred_y, g') ← random_choice g (leaf_node_keys p);
      Some (set_y img pred_y, g').

(** ** The image: the most likely label given the annotations *)

(** The annotations that count: [not anno.is_computer_vision() or ncv] *)
Definition contributes (ncv : bool) (anno : Label) : bool :=
  negb (is_computer_vision anno) || ncv.

Record WorkerData := {
  wd_M : list (list R);
  wd_N : list R;
  wd_label : nat;
  wd_prob_trust : R
}.

Definition collect_worker (p : Params) (workers : gmap string Worker)
    (num_nodes : nat) (anno : Label) : option WorkerData :=
  wid ← worker anno;
  w ← workers !! wid;
  '(wM, wN) ← build_M_and_N p w;
  wN ← np_broadcast_to num_nodes wN;
  integer_label ← orig_node_key_to_integer_id p !! label anno;
  Some {| wd_M := wM; wd_N := wN; wd_label := integer_label;
          wd_prob_trust := worker_prob_trust w |}.

(** The row of the second worker: [pt] where the previous label occurs,
    [ppnt] in all other spots. *)
Definition first_response_row (num_nodes : nat) (priors : list R)
    (previous_label worker_label : nat) (pt : R) : option (list R) :=
  prior ← priors !! worker_label;
  let ppnt := (1 - pt) * prior in
  Some ((λ node_label, if decide (node_label = previous_label) then pt else ppnt)
          <$> xrange num_nodes).

(** The row of each additional worker, from the row before it. *)
Definition next_response_row (num_nodes : nat) (priors : list R)
    (prev_row : list R) (previous_label worker_label : nat) (pt : R)
    : option (list R) :=
  prior ← priors !! worker_label;
  let pnt := 1 - pt in
  let ppnt := pnt * prior in
  ppr ← prev_row !! previous_label;
  num ← set1 (replicate num_nodes (ppnt * ppr)) previous_label (pt * ppr);
  let match_ := (λ x, pt * x) <$> prev_row in
  let no_match := (λ x, ppnt * x) <$> prev_row in
  let no_match_sum := np_sum no_match in
  let denom := zip_with Rminus ((λ x, x + no_match_sum) <$> match_) no_match in
  Some (zip_with Rdiv num denom).

Definition response_row_step (num_nodes : nat) (priors : list R)
    (worker_labels : list nat) (worker_prob_trust : list R)
    (rows : list (list R)) (wind : nat) : option (list (list R)) :=
  previous_label ← worker_labels !! (wind - 1)%nat;
  worker_label ← worker_labels !! wind;
  pt ← worker_prob_trust !! wind;
  prev_row ← rows !! (wind - 1)%nat;
  row ← next_response_row num_nodes priors prev_row previous_label worker_label pt;
  set1 rows wind row.

(** [prob_prior_responses[j, z]]: the probability of the previous
    annotations given that worker [j] provided the label [z]. *)
Definition prob_prior_responses (num_nodes : nat) (priors : list R)
    (worker_labels : list nat) (worker_prob_trust : list R)
    : option (list (list R)) :=
  let num_workers := length worker_labels in
  let rows := replicate num_workers (replicate num_nodes 1) in
  if decide (1 < num_workers)%nat then
    previous_label ← worker_labels !! 0%nat;
    worker_label ← worker_labels !! 1%nat;
    pt ← worker_prob_trust !! 1%nat;
    row ← first_response_row num_nodes priors previous_label worker_label pt;
    rows ← set1 rows 1 row;
    foldlM (response_row_step num_nodes priors worker_labels worker_prob_trust)
           rows (seq 2 (num_workers - 2))
  else Some rows.

Definition set_prob_prev_annos (anno : Label) (v : R) : Label :=
  {| worker := worker anno; label := label anno;
     is_computer_vision := is_computer_vision anno;
     prob_prev_annos := Some v |}.

(** The computed probabilities are stored with the labels. *)
Fixpoint store_prob_prev_annos (ncv : bool) (rows : list (list R))
    (worker_labels : list nat) (wind : nat) (zs : list (string * Label))
    : option (list (string * Label)) :=
  match zs with
  | [] => Some []
  | (k, anno) :: rest =>
      if contributes ncv anno then
        wl ← worker_labels !! wind;
        v ← get2 rows wind wl;
        rest' ← store_prob_prev_annos ncv rows worker_labels (wind + 1) rest;
        Some ((k, set_prob_prev_annos anno v) :: rest')
      else
        rest' ← store_prob_prev_annos ncv rows worker_labels wind rest;
        Some ((k, anno) :: rest')
  end.

(** [T[I0, I1, I2] = vals] on the tensor of one worker *)
Definition fancy_assign3 (T : list (list (list R)))
    (idx : list (nat * nat * nat)) (vals : list R)
    : option (list (list (list R))) :=
  vals' ← np_broadcast_to (length idx) vals;
  foldlM (λ T iv, set3 T iv.1.1.1 iv.1.1.2 iv.1.2 iv.2) T (zip idx vals').

(** [np.prod(T, axis=2)] on the tensor of one worker *)
Definition prod_along_paths (T : list (list (list R))) : list (list R) :=
  (λ plane : list (list R), np_prod <$> plane) <$> T.

(** The likelihood of each annotation that one worker could provide:
    entry [[y, z]] is the probability of the annotation [z] when the
    class is [y]. *)
Definition annotation_probs_of_worker (p : Params)
    (num_classes num_nodes max_path_length : nat) (wd : WorkerData)
    : option (list (list R)) :=
  let T := replicate num_classes
             (replicate num_nodes (replicate (max_path_length - 1) 1)) in
  from_M ← mapM (λ rc, get2 (wd_M wd) rc.1 rc.2) (annotation_probs_M_indices p);
  T ← fancy_assign3 T (annotation_probs_insert_from_M p) from_M;
  from_N ← fancy_read (wd_N wd) (annotation_probs_N_indices p);
  T ← fancy_assign3 T (annotation_probs_insert_from_N p) from_N;
  (* the product along the taxonomic paths *)
  Some (prod_along_paths T).

(** The term of one worker in the log likelihood of the class [y]. *)
Definition worker_log_term (y : nat)
    (b : list (list R) * list R * nat) : option R :=
  let '(probs, prior_responses, worker_label) := b in
  probs_y ← probs !! y;
  p_anno ← probs_y !! worker_label;
  p_prior ← prior_responses !! worker_label;
  let num := ln p_anno + ln p_prior in
  let denom := np_sum (zip_with Rmult probs_y prior_responses) in
  Some (num - ln denom).

(** [np.argmax]: the first index that holds the maximum *)
Fixpoint argmax_from (best_i : nat) (best : R) (i : nat) (v : list R) : nat :=
  match v with
  | [] => best_i
  | x :: v =>
      if Rlt_dec best x then argmax_from i x (S i) v
      else argmax_from best_i best (S i) v
  end.

Definition np_argmax (v : list R) : option nat :=
  match v with
  | [] => None
  | x :: v => Some (argmax_from 0 x 1 v)
  end.

(** The diagnostic branch for the image '1112246' only prints, but its
    subscripts must be in range; when one is not, the method raises after
    it has assigned [y] and [risk], and the model returns [None]. *)
Definition debug_subscripts_ok (num_classes num_nodes num_workers : nat)
    (img : Image) : bool :=
  bool_decide (33 < num_classes)%nat
  && forallb (λ w, bool_decide (w < num_workers)%nat
                   && bool_decide (60 < num_nodes)%nat)
             (xrange (length (z img))).

Definition predict_true_labels (p : Params) (workers : gmap string Worker)
    (avoid_if_finished : bool) (img : Image) : option Image :=
  if avoid_if_finished && finished img && negb (model_worker_trust p)
  then Some img
  else
    let node_priors := node_priors p in
    let leaf_node_indices := leaf_integer_ids p in
    class_priors ← fancy_read node_priors leaf_node_indices;
    let num_nodes := length node_priors in
    let num_classes := length leaf_node_indices in
    let max_path_length := (max_depth (taxonomy p) + 1)%nat in
    let ncv := naive_computer_vision p in
    let annos := filter (λ a, contributes ncv a = true) ((λ kv, kv.2) <$> z img) in
    let num_workers := length annos in
    wds ← mapM (collect_worker p workers num_nodes) annos;
    let worker_labels := wd_label <$> wds in
    let worker_prob_trust := wd_prob_trust <$> wds in
    ppr ← prob_prior_responses num_nodes node_priors worker_labels
            worker_prob_trust;
    z' ← store_prob_prev_annos ncv ppr worker_labels 0 (z img);
    if avoid_if_finished && finished img then
      Some {| image_id := image_id img; z := z'; y := y img; risk := risk img;
              finished := finished img; cv_pred := cv_pred img |}
    else
      annotation_probs ←
        mapM (annotation_probs_of_worker p num_classes num_nodes max_path_length)
             wds;
      prob_of_annos ←
        mapM (λ y, terms ← mapM (worker_log_term y)
                             (zip (zip annotation_probs ppr) worker_labels);
                   Some (np_sum terms))
             (xrange num_classes);
      let class_log_likelihoods :=
        zip_with Rplus prob_of_annos (ln <$> class_priors) in
      arg_max_index ← np_argmax class_log_likelihoods;
      pred_y_integer_id ← leaf_node_indices !! arg_max_index;
      pred_y ← integer_id_to_orig_node_key p !! pred_y_integer_id;
      m ← class_log_likelihoods !! arg_max_index;
      let denom := np_sum ((λ l, exp (l - m)) <$> class_log_likelihoods) in
      let prob_y := 1 / denom in
      _ ← (if decide (image_id img = "1112246")
           then py_assert (debug_subscripts_ok num_classes num_nodes num_workers img)
           else Some tt);
      Some {| image_id := image_id img; z := z'; y := Some (new_label pred_y);
              risk := 1 - prob_y; finished := finished img;
              cv_pred := cv_pred img |}.

(** ** The image: the remaining operations *)

Definition image_compute_log_likelihood (p : Params) (img : Image) : option R :=
  y_label ← y img;
  match cv_pred img with
  | Some probs => pr ← probs !! label y_label; math_log pr
  | None => pr ← class_probs p !! label y_label; math_log pr
  end.

(** The image difficulty is not modelled: the method returns at once. *)
Definition image_estimate_parameters (avoid_if_finished : bool) (img : Image)
    : Image := img.

Definition Rleb (a b : R) : bool := if Rle_dec a b then true else false.

Definition check_finished (p : Params) (set_finished : bool) (img : Image)
    : bool * Image :=
  if finished img then (true, img)
  else
    let finished' := Rleb (risk img) (min_risk p) in
    (finished',
     if set_finished then
       {| image_id := image_id img; z := z img; y := y img; risk := risk img;
          finished := finished'; cv_pred := cv_pred img |}
     else img).

(** The operations of an image, and what running one of them does to the
    image and to the random generator. *)
Inductive ImageOp :=
  | OpCrowdsourceSimple (avoid_if_finished : bool)
  | OpPredictTrueLabels (avoid_if_finished : bool)
  | OpComputeLogLikelihood
  | OpEstimateParameters (avoid_if_finished : bool)
  | OpCheckFinished (set_finished : bool).

Inductive PyResult :=
  | RetNone
  | RetBool (b : bool)
  | RetFloat (r : R).

Definition run_image_op (p : Params) (workers : gmap string Worker)
    (op : ImageOp) (g : RandomState) (img : Image)
    : option (PyResult * Image * RandomState) :=
  match op with
  | OpCrowdsourceSimple avoid =>
      '(img', g') ← crowdsource_simple p avoid g img; Some (RetNone, img', g')
  | OpPredictTrueLabels avoid =>
      img' ← predict_true_labels p workers avoid img; Some (RetNone, img', g)
  | OpComputeLogLikelihood =>
      ll ← image_compute_log_likelihood p img; Some (RetFloat ll, img, g)
  | OpEstimateParameters avoid =>
      Some (RetNone, image_estimate_parameters avoid img, g)
  | OpCheckFinished set_finished =>
      let '(b, img') := check_finished p set_finished img in
      Some (RetBool b, img', g)
  end.

(** The one case in which an operation consults the random generator:
    the majority vote runs and no annotation names a leaf. *)
Definition draws_random_label (p : Params) (op : ImageOp) (img : Image) : Prop :=
  match op with
  | OpCrowdsourceSimple avoid =>
      avoid && finished img = false
      ∧ Forall (λ kv : string * Label, label kv.2 ∉ leaf_node_key_set p) (z img)
  | _ => False
  end.

(** ** The worker: serialisation *)

(** The values of the encoded data that matter here. *)
Inductive PyValue :=
  | PyFloatList (l : list R)
  | PyOther (s : string).

(** [array.tolist()] and [np.array(list)] keep the numbers. *)
Definition tolist (a : list R) : list R := a.
Definition np_array (l : list R) : list R := l.

Definition set_skill_vector (w : Worker) (sv : list R) : Worker :=
  {| worker_id := worker_id w; skill_vector := Some sv;
     worker_prob_trust := worker_prob_trust w; images := images w;
     prob := prob w; skill := skill w |}.

Section WorkerSerialisation.
(** [encode] and [parse] of the base class [CrowdWorker] *)
Variable super_encode : Worker → gmap string PyValue.
Variable super_parse : Worker → gmap string PyValue → Worker.

Definition worker_encode (w : Worker) : gmap string PyValue :=
  let data := super_encode w in
  match skill_vector w with
  | Some sv => <["skill_vector" := PyFloatList (tolist sv)]> data
  | None => data
  end.

(** A value under ['skill_vector'] that is not a list of numbers gives an
    array that the model does not represent. *)
Definition worker_parse (w : Worker) (data : gmap string PyValue)
    : option Worker :=
  let w := super_parse w data in
  match data !! "skill_vector" with
  | Some (PyFloatList l) => Some (set_skill_vector w (np_array l))
  | Some (PyOther _) => None
  | None => Some w
  end.
End WorkerSerialisation.

(** ** A two class taxonomy: root -> {A, B} *)

Definition node_root : Node :=
  {| key := "root"; is_root := true; is_leaf := false; parent := None;
     children := ["A"; "B"]; ancestors := []; data_prob := 1 |}.

Definition leaf_node (k : string) (pr : R) : Node :=
  {| key := k; is_root := false; is_leaf := true; parent := Some "root";
     children := []; ancestors := ["root"]; data_prob := pr |}.

Definition taxonomy_AB (pA pB : R) : Taxonomy :=
  {| finalized := true; priors_initialized := true;
     nodes := {[ "root" := node_root; "A" := leaf_node "A" pA;
                 "B" := leaf_node "B" pB ]};
     inner_nodes := [node_root];
     leaf_nodes := [leaf_node "A" pA; leaf_node "B" pB];
     num_inner_nodes := 1; num_leaf_nodes := 2; max_depth := 1 |}.

Definition dataset_AB (pA pB pc pc_prior : R) : Dataset :=
  {| taxonomy := taxonomy_AB pA pB;
     class_probs := {[ "A" := pA; "B" := pB ]};
     prob_correct_prior_beta := 15; prob_correct_prior := pc_prior;
     prob_correct_beta := 10; prob_correct := pc;
     prob_trust_prior_beta := 15; prob_trust_prior := 0.8;
     prob_trust_beta := 10; prob_trust := 0.8;
     model_worker_trust := false; recursive_trust := true;
     naive_computer_vision := false; min_risk := 0.02 |}.

(** The flat index that [initialize_data_structures] builds for it. *)
Definition ids_AB : IdMaps :=
  {| orig_node_key_to_integer_id := {[ "root" := 0; "A" := 1; "B" := 2 ]}%nat;
     integer_id_to_orig_node_key :=
       {[ 0%nat := "root"; 1%nat := "A"; 2%nat := "B" ]};
     leaf_integer_ids := [1; 2]%nat;
     leaf_node_key_set := {[ "A"; "B" ]};
     ids_num_inner_nodes := 1 |}.

Definition index_AB (pA pB pc pc_prior : R) : FlatIndex :=
  {| id_maps := ids_AB;
     leaf_node_keys := elements (leaf_node_key_set ids_AB);
     node_priors := [1; pA; pB];
     parent_and_siblings_indices := [[0; 1; 2]]%nat;
     parent_indices := [0; 0]%nat;
     class_node_index_list_padded_neg_1 := [[0; 1]; [0; 2]]%Z;
     anno_node_index_list_padded_neg_2 := [[0; -2]; [0; 1]; [0; 2]]%Z;
     root_to_node_path_list :=
       {[ 0 := [0]; 1 := [0; 1]; 2 := [0; 2] ]}%nat;
     annotation_probs_insert_from_M :=
       [(0, 1, 0); (0, 2, 0); (1, 1, 0); (1, 2, 0)]%nat;
     annotation_probs_M_indices := [(1, 1); (1, 2); (2, 1); (2, 2)]%nat;
     annotation_probs_insert_from_N := [];
     annotation_probs_N_indices := [];
     skill_vector_correct_read_indices := [0; 0]%nat;
     M_correct_rows := [1; 2]%nat;
     M_correct_cols := [1; 2]%nat;
     skill_vector_incorrect_read_indices := [0; 0]%nat;
     skill_vector_node_priors_read_indices := [2; 1]%nat;
     M_incorrect_rows := [1; 2]%nat;
     M_incorrect_cols := [2; 1]%nat;
     default_skill_vector := [1 * pc];
     pooled_prob_correct_vector := [1 * pc_prior] |}.

Definition params_AB (pA pB pc pc_prior : R) : Params :=
  {| dataset := dataset_AB pA pB pc pc_prior;
     flat_index := index_AB pA pB pc pc_prior |}.

Definition anno_by (w l : string) : Label :=
  {| worker := Some w; label := l; is_computer_vision := false;
     prob_prev_annos := None |}.

Definition new_image (i : string) (annos : list (string * Label)) : Image :=
  {| image_id := i; z := annos; y := None; risk := 1; finished := false;
     cv_pred := None |}.

Definition new_worker (i : string) (sv : list R) (imgs : list Image) : Worker :=
  {| worker_id := i; skill_vector := Some sv; worker_prob_trust := 0.8;
     images := imgs; prob := None; skill := None |}.

(** The scenario of one annotation: priors 0.5 / 0.5, one worker of skill
    0.9 at the root who reports "A". *)
Definition params_one_worker : Params := params_AB (1/2) (1/2) 0.8 0.8.

Definition workers_one_worker : gmap string Worker :=
  {[ "w1" := new_worker "w1" [9/10] [] ]}.

Definition image_one_worker : Image :=
  new_image "i1" [("w1", anno_by "w1" "A")].

(** The posterior probability of the predicted label *)
Definition posterior_of_prediction (img : Image) : R := 1 - risk img.

(** ** Vocabulary of the statements *)

(** The entries of [M] that one group [parent :: siblings] fills in, each
    with the index of the skill that it reads: the diagonal ones, and the
    off-diagonal ones. *)
Definition group_correct (g : list nat) : list (nat * nat * nat) :=
  match g with
  | [] => []
  | p :: sibs => (λ s, (s, s, p)) <$> sibs
  end.

Definition group_incorrect (g : list nat) : list (nat * nat * nat) :=
  match g with
  | [] => []
  | p :: sibs => (λ rc, (rc.1, rc.2, p)) <$> incorrect_pairs sibs
  end.

(** The index arrays of [M], as one record. *)
Definition index_M_lists (idx : FlatIndex) : MIndexLists :=
  {| mi_correct_read := skill_vector_correct_read_indices idx;
     mi_correct_rows := M_correct_rows idx;
     mi_correct_cols := M_correct_cols idx;
     mi_incorrect_read := skill_vector_incorrect_read_indices idx;
     mi_priors_read := skill_vector_node_priors_read_indices idx;
     mi_incorrect_rows := M_incorrect_rows idx;
     mi_incorrect_cols := M_incorrect_cols idx |}.

(** No node is a child in two sibling groups with different parents. *)
Definition groups_disjoint (gs : list (list nat)) : Prop :=
  ∀ pa sibs pa' sibs' r,
    pa :: sibs ∈ gs → pa' :: sibs' ∈ gs → r ∈ sibs → r ∈ sibs' → pa = pa'.

(** The probability, for the worker at position [t], of the label of the
    worker before given the label [zl]: the trust [pt] when [zl] is the
    previous label, [ppnt] otherwise. *)
Definition response_given (previous_label : nat) (pt ppnt : R) (zl : nat) : R :=
  if decide (zl = previous_label) then pt else ppnt.

(** What the entry [[t, zl]] of [prob_prior_responses] is, for [t >= 1]:
    [ppnt] is [(1 - pt)] times the prior of the label that worker [t]
    reported; the second row holds [response_given]; a later row divides
    its numerator by its denominator, both read from the row before. *)
Definition chain_entry_ok (priors : list R) (worker_labels : list nat)
    (worker_prob_trust : list R) (rows : list (list R)) (t zl : nat) : Prop :=
  ∃ previous_label worker_label pt prior,
    worker_labels !! (t - 1)%nat = Some previous_label
    ∧ worker_labels !! t = Some worker_label
    ∧ worker_prob_trust !! t = Some pt
    ∧ priors !! worker_label = Some prior
    ∧ let ppnt := (1 - pt) * prior in
      if decide (t = 1%nat) then
        get2 rows t zl = Some (response_given previous_label pt ppnt zl)
      else
        ∃ prev_row ppr x,
          rows !! (t - 1)%nat = Some prev_row
          ∧ prev_row !! previous_label = Some ppr
          ∧ prev_row !! zl = Some x
          ∧ get2 rows t zl
            = Some (response_given previous_label pt ppnt zl * ppr
                    / (pt * x + np_sum ((λ y, ppnt * y) <$> prev_row)
                       - ppnt * x)).

(** The rows up to [k] are as specified and all rows have their shape. *)
Definition chain_rows_ok (num_nodes num_workers : nat) (priors : list R)
    (worker_labels : list nat) (worker_prob_trust : list R)
    (k : nat) (rows : list (list R)) : Prop :=
  length rows = num_workers
  ∧ (∀ i row, rows !! i = Some row → length row = num_nodes)
  ∧ ∀ t zl, (1 ≤ t < k)%nat → (zl < num_nodes)%nat →
      chain_entry_ok priors worker_labels worker_prob_trust rows t zl.

(** The root paths of the predicted label of an image and of the label
    that the worker gave it, as [estimate_parameters] reads them. *)
Definition image_paths (p : Params) (self_id : string) (image : Image)
    : option (list nat * list nat) :=
  y_label ← y image;
  y_integer_id ← orig_node_key_to_integer_id p !! label y_label;
  anno ← odict_lookup self_id (z image);
  z_integer_id ← orig_node_key_to_integer_id p !! label anno;
  y_node_list ← root_to_node_path_list p !! y_integer_id;
  z_node_list ← root_to_node_path_list p !! z_integer_id;
  Some (y_node_list, z_node_list).

(** The path passes through the inner node [n]: [n] is on the path and
    is not its last node. *)
Definition passes_through (y_node_list : list nat) (n : nat) : bool :=
  bool_decide (n ∈ py_init y_node_list).

(** The path [z_node_list] agrees with [y_node_list] up to and including
    the child of [n]. *)
Definition agrees_through_child (y_node_list z_node_list : list nat) (n : nat)
    : bool :=
  existsb (λ i, bool_decide (y_node_list !! i = Some n)
                && bool_decide (is_Some (y_node_list !! S i))
                && bool_decide (take (S (S i)) y_node_list
                                = take (S (S i)) z_node_list))
          (seq 0 (length y_node_list)).

(** The images that add one to [skill_counts_denom[n]], and those that
    add one to [skill_counts_num[n]]. *)
Definition counts_total (p : Params) (self_id : string) (n : nat)
    (image : Image) : bool :=
  bool_decide (1 < length (z image))%nat
  && match image_paths p self_id image with
     | Some (y_node_list, _) => passes_through y_node_list n
     | None => false
     end.

Definition counts_correct (p : Params) (self_id : string) (n : nat)
    (image : Image) : bool :=
  bool_decide (1 < length (z image))%nat
  && match image_paths p self_id image with
     | Some (y_node_list, z_node_list) =>
         agrees_through_child y_node_list z_node_list n
     | None => false
     end.

Definition count_images (f : Image → bool) (imgs : list Image) : nat :=
  length (filter (λ img, f img = true) imgs).

(** The child positions at which the traversal of [estimate_parameters]
    adds one to the count of [n]. *)
Definition matching_children (y_node_list z_node_list : list nat) (n : nat)
    (child_node_indices : list nat) : list nat :=
  filter (λ ci, (ci < length z_node_list)%nat
                ∧ y_node_list !! (ci - 1)%nat = Some n
                ∧ y_node_list !! ci = z_node_list !! ci)
         child_node_indices.

(** The root paths of the index come from a tree: no node occurs twice on
    a path, and two paths that meet at a position agree up to it. *)
Definition paths_of_a_tree (paths : gmap nat (list nat)) : Prop :=
  (∀ a pa, paths !! a = Some pa → NoDup pa)
  ∧ (∀ a b pa pb i m,
       paths !! a = Some pa → paths !! b = Some pb →
       pa !! i = Some m → pb !! i = Some m →
       take (S i) pa = take (S i) pb).

(** A worker with one image that only they annotated. *)
Definition image_only_w1 : Image :=
  set_y (new_image "i1" [("w1", anno_by "w1" "A")]) "A".

(** An image on which "w1" and "w2" both report the predicted label. *)
Definition image_two_workers : Image :=
  set_y (new_image "i2" [("w1", anno_by "w1" "A"); ("w2", anno_by "w2" "A")])
        "A".

Local Close Scope R_scope.

(** ** Loops and arrays *)

Section Loops.
Context {A B : Type}.
Implicit Types (f : A → B → option A) (l : list B).

Lemma foldlM_app f l1 l2 a :
  foldlM f a (l1 ++ l2) = a' ← foldlM f a l1; foldlM f a' l2.
Proof.
  revert a. induction l1 as [|x l1 IH]; intros a; simpl; [done|].
  destruct (f a x); simpl; [apply IH | done].
Qed.

(** An invariant that every iteration keeps holds after the loop. *)
Lemma foldlM_invariant (P : A → Prop) f l a a' :
  foldlM f a l = Some a' →
  P a →
  (∀ s x s', x ∈ l → P s → f s x = Some s' → P s') →
  P a'.
Proof.
  revert a. induction l as [|x l IH]; intros a Hrun Ha Hstep; simpl in Hrun.
  - by injection Hrun as <-.
  - apply bind_Some in Hrun as (a1 & Hfx & Hrun).
    apply (IH a1 Hrun).
    + eapply Hstep; [| exact Ha | exact Hfx]. left.
    + intros s y s' Hy. apply Hstep. by right.
Qed.
End Loops.

Section Arrays.
Context {A : Type}.
Implicit Types (v : list A) (M : list (list A)).

Lemma np_broadcast_to_same n v :
  length v = n → np_broadcast_to n v = Some v.
Proof. intros H. unfold np_broadcast_to. by rewrite decide_True. Qed.

Lemma fancy_read_length v idx vals :
  fancy_read v idx = Some vals → length vals = length idx.
Proof. intros H. symmetry. by eapply length_mapM. Qed.

Lemma fancy_read_lookup v idx vals k i :
  fancy_read v idx = Some vals → idx !! k = Some i →
  ∃ x, vals !! k = Some x ∧ v !! i = Some x.
Proof.
  intros H Hk. apply mapM_Some in H.
  destruct (Forall2_lookup_l _ _ _ _ _ H Hk) as (x & Hx & Hv). eauto.
Qed.

Lemma set1_Some v i x v' :
  set1 v i x = Some v' → i < length v ∧ v' = <[i := x]> v.
Proof.
  unfold set1. intros H. apply bind_Some in H as (y & Hy & H).
  injection H as <-. split; [by eapply lookup_lt_Some | done].
Qed.

Lemma set1_length v i x v' : set1 v i x = Some v' → length v' = length v.
Proof. intros H. apply set1_Some in H as [_ ->]. apply length_insert. Qed.

Lemma set1_lookup v i x v' j :
  set1 v i x = Some v' →
  v' !! j = if decide (i = j) then Some x else v !! j.
Proof.
  intros H. apply set1_Some in H as [Hi ->].
  destruct (decide (i = j)) as [->|Hne].
  - by apply list_lookup_insert_eq.
  - by apply list_lookup_insert_ne.
Qed.

Lemma set2_get2 M r c x M' r' c' :
  set2 M r c x = Some M' →
  get2 M' r' c' = if decide ((r, c) = (r', c')) then Some x else get2 M r' c'.
Proof.
  unfold set2, get2. intros H.
  apply bind_Some in H as (row & Hrow & H).
  apply bind_Some in H as (row' & Hset & H). injection H as <-.
  destruct (decide (r = r')) as [<-|Hr].
  - rewrite list_lookup_insert_eq by (by eapply lookup_lt_Some). simpl.
    rewrite (set1_lookup _ _ _ _ c' Hset), Hrow. simpl.
    destruct (decide (c = c')) as [<-|Hc].
    + by rewrite decide_True.
    + rewrite decide_False; [done | congruence].
  - rewrite list_lookup_insert_ne by done.
    rewrite decide_False; [done | congruence].
Qed.

Lemma set2_shape M r c x M' :
  set2 M r c x = Some M' →
  length M' = length M
  ∧ ∀ i, length <$> (M' !! i) = length <$> (M !! i).
Proof.
  unfold set2. intros H.
  apply bind_Some in H as (row & Hrow & H).
  apply bind_Some in H as (row' & Hset & H). injection H as <-.
  split; [apply length_insert|]. intros i.
  destruct (decide (r = i)) as [<-|Hne].
  - rewrite list_lookup_insert_eq by (by eapply lookup_lt_Some).
    rewrite Hrow. simpl. f_equal. by eapply set1_length.
  - by rewrite list_lookup_insert_ne.
Qed.

Lemma writes2_untouched ws : ∀ M M' r c,
  writes2 M ws = Some M' →
  (∀ w, w ∈ ws → w.1 ≠ (r, c)) →
  get2 M' r c = get2 M r c.
Proof.
  unfold writes2.
  induction ws as [|w ws IH]; intros M M' r c Hrun Hno; simpl in Hrun.
  - by injection Hrun as <-.
  - apply bind_Some in Hrun as (M1 & Hset & Hrun).
    rewrite (IH M1 M' r c Hrun) by (intros; apply Hno; by right).
    rewrite (set2_get2 _ _ _ _ _ r c Hset).
    rewrite decide_False; [done|].
    intros Heq. apply (Hno w); [left|]. by destruct w as [[??]?].
Qed.

Lemma writes2_written ws : ∀ M M' r c x,
  writes2 M ws = Some M' →
  (∀ w, w ∈ ws → w.1 = (r, c) → w.2 = x) →
  (∃ w, w ∈ ws ∧ w.1 = (r, c)) →
  get2 M' r c = Some x.
Proof.
  induction ws as [|w ws IH]; intros M M' r c x Hrun Hval Hex.
  - destruct Hex as (w & Hw & _). by apply elem_of_nil in Hw.
  - pose proof Hrun as Hrun'. unfold writes2 in Hrun. simpl in Hrun.
    apply bind_Some in Hrun as (M1 & Hset & Hrun).
    destruct (decide (Exists (λ w', w'.1 = (r, c)) ws)) as [Hlater|Hnone].
    + apply (IH M1 M' r c x Hrun).
      * intros w' Hw'. apply Hval. by right.
      * apply Exists_exists in Hlater. exact Hlater.
    + rewrite (writes2_untouched ws M1 M' r c Hrun).
      2:{ intros w' Hw' Heq. apply Hnone, Exists_exists. eauto. }
      rewrite (set2_get2 _ _ _ _ _ r c Hset).
      destruct Hex as (w' & Hw' & Heq).
      apply elem_of_cons in Hw' as [->|Hw'].
      * destruct w as [[r0 c0] x0]. simpl in *.
        rewrite decide_True by done. f_equal. by apply (Hval (r0, c0, x0)); [left|].
      * exfalso. apply Hnone, Exists_exists. eauto.
Qed.

Lemma writes2_shape ws : ∀ M M',
  writes2 M ws = Some M' →
  length M' = length M ∧ ∀ i, length <$> (M' !! i) = length <$> (M !! i).
Proof.
  unfold writes2. induction ws as [|w ws IH]; intros M M' Hrun; simpl in Hrun.
  - by injection Hrun as <-.
  - apply bind_Some in Hrun as (M1 & Hset & Hrun).
    destruct (IH _ _ Hrun) as [H1 H2].
    destruct (set2_shape _ _ _ _ _ Hset) as [H3 H4].
    split; [congruence|]. intros i. by rewrite H2, H4.
Qed.
End Arrays.

Lemma fancy_assign2_same_length (M : list (list R)) rows cols vals :
  length rows = length cols → length cols = length vals →
  fancy_assign2 M rows cols vals = writes2 M (zip (zip rows cols) vals).
Proof.
  intros H1 H2. unfold fancy_assign2.
  assert ((if decide (length rows = 1) then length cols else length rows)
          = length rows) as -> by (case_decide; congruence).
  rewrite !np_broadcast_to_same by congruence. reflexivity.
Qed.

Lemma np_binop_same_length f (a b : list R) :
  length a = length b → np_binop f a b = Some (zip_with f a b).
Proof.
  intros H. unfold np_binop.
  assert ((if decide (length a = 1) then length b else length a)
          = length a) as -> by (case_decide; congruence).
  rewrite !np_broadcast_to_same by congruence. reflexivity.
Qed.

(** ** The integer ids *)

Section IdAssignment.
Implicit Types (l : list Node) (k2i : gmap string nat) (i2k : gmap nat string).

Lemma enumerate_from_cons {A} start (x : A) xs :
  enumerate_from start (x :: xs) = (start, x) :: enumerate_from (S start) xs.
Proof. reflexivity. Qed.

(** Inserting [key -> f position] for a list of nodes with distinct keys. *)
Lemma foldl_insert_by_key (f : nat → nat) l : ∀ start k2i,
  NoDup (key <$> l) →
  let r := foldl (λ m (b : nat * Node), <[key b.2 := f b.1]> m) k2i
                 (enumerate_from start l) in
  (∀ j nd, l !! j = Some nd → r !! key nd = Some (f (start + j)))
  ∧ (∀ k, k ∉ key <$> l → r !! k = k2i !! k).
Proof.
  induction l as [|x xs IH]; intros start k2i Hnd.
  - split; [intros j nd Hj; by rewrite lookup_nil in Hj | done].
  - rewrite enumerate_from_cons. cbn zeta. simpl foldl.
    rewrite fmap_cons in Hnd. apply NoDup_cons in Hnd as [Hx Hxs].
    destruct (IH (S start) (<[key x := f start]> k2i) Hxs) as [IH1 IH2].
    split.
    + intros [|j] nd Hj; simpl in Hj.
      * injection Hj as <-. rewrite IH2 by done.
        rewrite Nat.add_0_r. apply lookup_insert_eq.
      * rewrite (IH1 j nd Hj). f_equal. f_equal. lia.
    + intros k Hk. apply not_elem_of_cons in Hk as [Hk1 Hk2].
      rewrite IH2 by done. by rewrite lookup_insert_ne.
Qed.

(** Inserting [f position -> key]: positions are distinct, so nothing is
    overwritten. *)
Lemma foldl_insert_by_id (f : nat → nat) l : ∀ start i2k,
  (∀ a b, f a = f b → a = b) →
  let r := foldl (λ m (b : nat * Node), <[f b.1 := key b.2]> m) i2k
                 (enumerate_from start l) in
  (∀ j nd, l !! j = Some nd → r !! f (start + j) = Some (key nd))
  ∧ (∀ i, (∀ j, j < length l → i ≠ f (start + j)) → r !! i = i2k !! i).
Proof.
  intros start i2k Hinj. revert start i2k.
  induction l as [|x xs IH]; intros start i2k.
  - split; [intros j nd Hj; by rewrite lookup_nil in Hj | done].
  - rewrite enumerate_from_cons. cbn zeta. simpl foldl.
    destruct (IH (S start) (<[f start := key x]> i2k)) as [IH1 IH2].
    split.
    + intros [|j] nd Hj; simpl in Hj.
      * injection Hj as <-. rewrite Nat.add_0_r. rewrite IH2.
        -- apply lookup_insert_eq.
        -- intros j _ Heq. apply Hinj in Heq. lia.
      * replace (start + S j) with (S start + j) by lia. by apply IH1.
    + intros i Hi. rewrite IH2.
      * rewrite lookup_insert_ne; [done|]. intros Heq.
        apply (Hi 0); [simpl; lia|]. by rewrite Nat.add_0_r.
      * intros j Hj. replace (S start + j) with (start + S j) by lia.
        apply Hi. simpl. lia.
Qed.

(** The first loop, component by component. *)
Lemma foldl_record_inner_id l : ∀ start k2i i2k last,
  foldl record_inner_id (k2i, i2k, last) (enumerate_from start l)
  = (foldl (λ m (b : nat * Node), <[key b.2 := b.1]> m) k2i
           (enumerate_from start l),
     foldl (λ m (b : nat * Node), <[b.1 := key b.2]> m) i2k
           (enumerate_from start l),
     match l with [] => last | _ => Some (start + length l - 1) end).
Proof.
  induction l as [|x xs IH]; intros start k2i i2k last; [done|].
  rewrite !enumerate_from_cons. simpl. rewrite IH.
  f_equal. destruct xs; simpl; f_equal; lia.
Qed.

(** The second loop, component by component. *)
Lemma foldl_record_leaf_id off l : ∀ start k2i i2k keyset leaf_ids,
  foldl (record_leaf_id off) (k2i, i2k, keyset, leaf_ids)
        (enumerate_from start l)
  = (foldl (λ m (b : nat * Node), <[key b.2 := b.1 + off]> m) k2i
           (enumerate_from start l),
     foldl (λ m (b : nat * Node), <[b.1 + off := key b.2]> m) i2k
           (enumerate_from start l),
     list_to_set (key <$> l) ∪ keyset,
     leaf_ids ++ seq (start + off) (length l)).
Proof.
  induction l as [|x xs IH]; intros start k2i i2k keyset leaf_ids.
  - simpl. rewrite app_nil_r. f_equal. f_equal. set_solver.
  - rewrite !enumerate_from_cons. simpl. rewrite IH. f_equal.
    + f_equal. set_solver.
    + rewrite <- app_assoc. reflexivity.
Qed.
End IdAssignment.

(** What [assign_integer_ids] computes: the two dictionaries are the two
    directions of the list [keys_by_id]. *)
Lemma assign_integer_ids_spec (t : Taxonomy) :
  inner_nodes t ≠ [] →
  NoDup (keys_by_id t) →
  ∃ ids,
    assign_integer_ids t = Some ids
    ∧ ids_num_inner_nodes ids = length (inner_nodes t)
    ∧ (∀ i, integer_id_to_orig_node_key ids !! i = keys_by_id t !! i)
    ∧ (∀ k i, orig_node_key_to_integer_id ids !! k = Some i
              ↔ keys_by_id t !! i = Some k)
    ∧ leaf_integer_ids ids
      = seq (length (inner_nodes t)) (length (leaf_nodes t))
    ∧ leaf_node_key_set ids = list_to_set (key <$> leaf_nodes t).
Proof.
  intros Hne Hnd. unfold assign_integer_ids, enumerate.
  rewrite foldl_record_inner_id.
  assert (∃ n, length (inner_nodes t) = S n) as [n Hn].
  { destruct (inner_nodes t); [done|]. eauto. }
  clear Hne.
  replace (match inner_nodes t with [] => None
           | _ => Some (0 + length (inner_nodes t) - 1) end)
    with (Some n).
  2:{ destruct (inner_nodes t); [done|]. f_equal. simpl in *. lia. }
  simpl. rewrite foldl_record_leaf_id.
  unfold keys_by_id in *. rewrite fmap_app in Hnd.
  apply NoDup_app in Hnd as (Hnd1 & Hdisj & Hnd2).
  set (k2i1 := foldl (λ m (b : nat * Node), <[key b.2 := b.1]> m) ∅
                     (enumerate_from 0 (inner_nodes t))).
  set (i2k1 := foldl (λ m (b : nat * Node), <[b.1 := key b.2]> m) ∅
                     (enumerate_from 0 (inner_nodes t))).
  destruct (foldl_insert_by_key (λ i, i) (inner_nodes t) 0 ∅ Hnd1)
    as [Hk1 Hk1'].
  destruct (foldl_insert_by_id (λ i, i) (inner_nodes t) 0 ∅) as [Hi1 Hi1'];
    [done|].
  destruct (foldl_insert_by_key (λ i, i + (n + 1)) (leaf_nodes t) 0 k2i1 Hnd2)
    as [Hk2 Hk2'].
  destruct (foldl_insert_by_id (λ i, i + (n + 1)) (leaf_nodes t) 0 i2k1)
    as [Hi2 Hi2']; [intros; lia|].
  fold k2i1 in Hk1, Hk1'. fold i2k1 in Hi1, Hi1'.
  simpl in Hk1, Hi1, Hk2, Hi2.
  eexists. split; [reflexivity|]. simpl.
  assert (Hi2k : ∀ i,
    foldl (λ m (b : nat * Node), <[b.1 + (n + 1) := key b.2]> m) i2k1
          (enumerate_from 0 (leaf_nodes t)) !! i
    = (key <$> inner_nodes t ++ leaf_nodes t) !! i).
  { intros i. rewrite fmap_app.
    destruct (decide (i < length (inner_nodes t))) as [Hlt|Hge].
    - rewrite lookup_app_l by (by rewrite length_fmap).
      rewrite Hi2' by (intros; lia).
      destruct (lookup_lt_is_Some_2 (inner_nodes t) i Hlt) as [nd Hnd'].
      rewrite list_lookup_fmap, Hnd'. simpl. by apply (Hi1 i nd).
    - rewrite lookup_app_r by (rewrite length_fmap; lia).
      rewrite length_fmap, list_lookup_fmap.
      destruct (leaf_nodes t !! (i - length (inner_nodes t))) as [nd|] eqn:E.
      + simpl. replace i with ((i - length (inner_nodes t)) + (n + 1))
          at 1 by lia.
        by apply Hi2.
      + simpl. apply lookup_ge_None in E.
        rewrite Hi2' by (intros; lia).
        rewrite Hi1' by (intros; lia). done. }
  split; [lia|]. split; [exact Hi2k|]. split.
  - intros k i. rewrite <- Hi2k. clear Hi2k.
    split.
    + intros Hk.
      destruct (decide (k ∈ key <$> leaf_nodes t)) as [Hin|Hnin].
      * apply list_elem_of_fmap in Hin as (nd & -> & Hin).
        apply list_elem_of_lookup in Hin as [j Hj].
        rewrite (Hk2 j nd Hj) in Hk. injection Hk as <-.
        by apply Hi2.
      * rewrite Hk2' in Hk by done.
        destruct (decide (k ∈ key <$> inner_nodes t)) as [Hin|Hnin'].
        -- apply list_elem_of_fmap in Hin as (nd & -> & Hin).
           apply list_elem_of_lookup in Hin as [j Hj].
           rewrite (Hk1 j nd Hj) in Hk. injection Hk as <-.
           apply lookup_lt_Some in Hj as Hlt.
           rewrite Hi2' by (intros; lia). by apply Hi1.
        -- rewrite Hk1' in Hk by done. by rewrite lookup_empty in Hk.
    + intros Hi.
      destruct (decide (i < length (inner_nodes t))) as [Hlt|Hge].
      * rewrite Hi2' in Hi by (intros; lia).
        destruct (lookup_lt_is_Some_2 (inner_nodes t) i Hlt) as [nd Hnd'].
        rewrite (Hi1 i nd Hnd') in Hi. injection Hi as <-.
        rewrite Hk2'; [by apply (Hk1 i nd)|].
        intros Hin. apply (Hdisj (key nd)); [|done].
        apply list_elem_of_fmap. exists nd. split; [done|].
        by eapply list_elem_of_lookup_2.
      * destruct (leaf_nodes t !! (i - length (inner_nodes t))) as [nd|] eqn:E.
        -- replace i with ((i - length (inner_nodes t)) + (n + 1))
             in Hi |- * by lia.
           rewrite (Hi2 _ nd E) in Hi. injection Hi as <-. by apply Hk2.
        -- apply lookup_ge_None in E.
           rewrite Hi2' in Hi by (intros; lia).
           rewrite Hi1' in Hi by (intros; lia).
           by rewrite lookup_empty in Hi.
  - split; [f_equal; lia | set_solver].
Qed.

(** ** The steps of [initialize_data_structures] *)

Lemma py_assert_Some b u : py_assert b = Some u → b = true.
Proof. by destruct b. Qed.

Lemma initialize_data_structures_inv (d : Dataset) (idx : FlatIndex) :
  initialize_data_structures d = Some idx →
  let t := taxonomy d in
  let n := size (nodes t) in
  finalized t = true
  ∧ priors_initialized t = true
  ∧ assign_integer_ids t = Some (id_maps idx)
  ∧ build_node_priors t idx n = Some (node_priors idx)
  ∧ build_parent_and_siblings_indices t idx
    = Some (parent_and_siblings_indices idx)
  ∧ build_parent_indices t idx n = Some (parent_indices idx)
  ∧ build_path_tables t idx n
    = Some {| pt_class := class_node_index_list_padded_neg_1 idx;
              pt_anno := anno_node_index_list_padded_neg_2 idx;
              pt_root_to_node := root_to_node_path_list idx;
              pt_class_index :=
                default 0 (pt_class_index <$> build_path_tables t idx n) |}
  ∧ build_scatter_lists (class_node_index_list_padded_neg_1 idx)
      (anno_node_index_list_padded_neg_2 idx) (num_leaf_nodes t) n
    = Some {| sl_insert_from_M := annotation_probs_insert_from_M idx;
              sl_M_indices := annotation_probs_M_indices idx;
              sl_insert_from_N := annotation_probs_insert_from_N idx;
              sl_N_indices := annotation_probs_N_indices idx |}
  ∧ build_M_index_lists (parent_and_siblings_indices idx)
    = Some (index_M_lists idx)
  ∧ leaf_node_keys idx = elements (leaf_node_key_set idx)
  ∧ default_skill_vector idx
    = replicate (num_inner_nodes t) (1 * prob_correct d)%R
  ∧ pooled_prob_correct_vector idx
    = replicate (num_inner_nodes t) (1 * prob_correct_prior d)%R.
Proof.
  intros H. cbv zeta. unfold initialize_data_structures in H.
  apply bind_Some in H as (? & Hfin%py_assert_Some & H).
  apply bind_Some in H as (? & Hpri%py_assert_Some & H).
  apply bind_Some in H as (ids & Hids & H).
  apply bind_Some in H as (priors & Hpriors & H).
  apply bind_Some in H as (pasi & Hpasi & H).
  apply bind_Some in H as (pind & Hpind & H).
  apply bind_Some in H as (tables & Htables & H).
  apply bind_Some in H as (sl & Hsl & H).
  apply bind_Some in H as (mi & Hmi & H).
  injection H as <-. simpl. rewrite Htables. simpl.
  destruct tables, sl, mi. simpl in *. done.
Qed.

(** ** The confusion matrix *)

Lemma incorrect_pairs_spec sibs r c :
  (r, c) ∈ incorrect_pairs sibs ↔ r ∈ sibs ∧ c ∈ sibs ∧ r ≠ c.
Proof.
  unfold incorrect_pairs. rewrite list_elem_of_bind. split.
  - intros (r' & Hin & Hr'). apply list_elem_of_bind in Hin as (c' & Hin & Hc').
    case_decide; [by apply elem_of_nil in Hin|].
    apply list_elem_of_singleton in Hin. injection Hin as -> ->. done.
  - intros (Hr & Hc & Hne). exists r. split; [|done].
    apply list_elem_of_bind. exists c. split; [|done].
    rewrite decide_False by done. by apply list_elem_of_singleton.
Qed.

Lemma replicate_as_fmap {A B} (l : list A) (x : B) :
  replicate (length l) x = (λ _, x) <$> l.
Proof. induction l as [|a l IH]; simpl; [done | by rewrite IH]. Qed.

(** The seven index arrays are projections of the two lists of entries. *)
Lemma foldlM_M_index_step gs : ∀ st mi,
  foldlM M_index_step st gs = Some mi →
  mi_correct_rows mi
    = mi_correct_rows st ++ ((λ e, e.1.1) <$> (gs ≫= group_correct))
  ∧ mi_correct_cols mi
    = mi_correct_cols st ++ ((λ e, e.1.2) <$> (gs ≫= group_correct))
  ∧ mi_correct_read mi
    = mi_correct_read st ++ ((λ e, e.2) <$> (gs ≫= group_correct))
  ∧ mi_incorrect_rows mi
    = mi_incorrect_rows st ++ ((λ e, e.1.1) <$> (gs ≫= group_incorrect))
  ∧ mi_incorrect_cols mi
    = mi_incorrect_cols st ++ ((λ e, e.1.2) <$> (gs ≫= group_incorrect))
  ∧ mi_incorrect_read mi
    = mi_incorrect_read st ++ ((λ e, e.2) <$> (gs ≫= group_incorrect))
  ∧ mi_priors_read mi
    = mi_priors_read st ++ ((λ e, e.1.2) <$> (gs ≫= group_incorrect)).
Proof.
  induction gs as [|g gs IH]; intros st mi Hrun; simpl in Hrun.
  - injection Hrun as <-. simpl. by rewrite !app_nil_r.
  - apply bind_Some in Hrun as (st1 & Hstep & Hrun).
    destruct (IH _ _ Hrun) as (E1 & E2 & E3 & E4 & E5 & E6 & E7).
    unfold M_index_step in Hstep.
    destruct g as [|pa sibs]; [done|]. simpl in Hstep.
    injection Hstep as <-. simpl in E1, E2, E3, E4, E5, E6, E7.
    rewrite drop_0 in *.
    rewrite E1, E2, E3, E4, E5, E6, E7. clear.
    cbn [mbind list_bind group_correct group_incorrect].
    rewrite !fmap_app, !app_assoc, <- !list_fmap_compose.
    rewrite (replicate_as_fmap sibs pa).
    repeat split; try reflexivity.
    + f_equal. f_equal. symmetry. apply list_fmap_id.
    + f_equal. f_equal. symmetry. apply list_fmap_id.
Qed.

Lemma build_M_index_lists_closed gs mi :
  build_M_index_lists gs = Some mi →
  mi_correct_rows mi = (λ e, e.1.1) <$> (gs ≫= group_correct)
  ∧ mi_correct_cols mi = (λ e, e.1.2) <$> (gs ≫= group_correct)
  ∧ mi_correct_read mi = (λ e, e.2) <$> (gs ≫= group_correct)
  ∧ mi_incorrect_rows mi = (λ e, e.1.1) <$> (gs ≫= group_incorrect)
  ∧ mi_incorrect_cols mi = (λ e, e.1.2) <$> (gs ≫= group_incorrect)
  ∧ mi_incorrect_read mi = (λ e, e.2) <$> (gs ≫= group_incorrect)
  ∧ mi_priors_read mi = (λ e, e.1.2) <$> (gs ≫= group_incorrect).
Proof. intros H. apply foldlM_M_index_step in H. exact H. Qed.

Section ConfusionMatrix.
Local Open Scope R_scope.

Lemma zip3_fmap_elem_of {E} (f1 f2 : E → nat) (l : list E) (vals : list R) w :
  w ∈ zip (zip (f1 <$> l) (f2 <$> l)) vals →
  ∃ k e, l !! k = Some e ∧ vals !! k = Some w.2 ∧ w.1 = (f1 e, f2 e).
Proof.
  intros Hw. apply list_elem_of_lookup in Hw as [k Hk].
  apply lookup_zip_with_Some in Hk as (rc & v & -> & Hrc & Hv).
  apply lookup_zip_with_Some in Hrc as (a & b & -> & Ha & Hb).
  rewrite list_lookup_fmap in Ha, Hb.
  destruct (l !! k) as [e|] eqn:He; [|done].
  simpl in Ha, Hb. injection Ha as <-. injection Hb as <-.
  exists k, e. done.
Qed.

Lemma zip3_fmap_lookup {E} (f1 f2 : E → nat) (l : list E) (vals : list R) k e v :
  l !! k = Some e → vals !! k = Some v →
  (f1 e, f2 e, v) ∈ zip (zip (f1 <$> l) (f2 <$> l)) vals.
Proof.
  intros He Hv. apply list_elem_of_lookup. exists k.
  apply lookup_zip_with_Some. exists (f1 e, f2 e), v. split; [done|].
  split; [|done]. apply lookup_zip_with_Some. exists (f1 e), (f2 e).
  by rewrite !list_lookup_fmap, He.
Qed.

Lemma group_correct_elem_of gs e :
  e ∈ gs ≫= group_correct ↔
  ∃ pa sibs, pa :: sibs ∈ gs ∧ e.1.1 ∈ sibs ∧ e = (e.1.1, e.1.1, pa).
Proof.
  rewrite list_elem_of_bind. split.
  - intros ([|pa sibs] & He & Hg); [by apply elem_of_nil in He|].
    simpl in He. apply list_elem_of_fmap in He as (s & -> & Hs).
    exists pa, sibs. done.
  - intros (pa & sibs & Hg & Hs & He). exists (pa :: sibs). split; [|done].
    simpl. apply list_elem_of_fmap. exists e.1.1. done.
Qed.

Lemma group_incorrect_elem_of gs e :
  e ∈ gs ≫= group_incorrect ↔
  ∃ pa sibs, pa :: sibs ∈ gs ∧ e.1.1 ∈ sibs ∧ e.1.2 ∈ sibs ∧ e.1.1 ≠ e.1.2
             ∧ e.2 = pa.
Proof.
  rewrite list_elem_of_bind. split.
  - intros ([|pa sibs] & He & Hg); [by apply elem_of_nil in He|].
    simpl in He. apply list_elem_of_fmap in He as ([r c] & -> & Hrc).
    apply incorrect_pairs_spec in Hrc as (? & ? & ?).
    exists pa, sibs. done.
  - intros (pa & sibs & Hg & Hr & Hc & Hne & He). exists (pa :: sibs).
    split; [|done]. simpl. apply list_elem_of_fmap. exists (e.1.1, e.1.2).
    split; [by destruct e as [[??]?]; simpl in *; subst|].
    by apply incorrect_pairs_spec.
Qed.

(** The steps of [build_M], with the index arrays in closed form. *)
Lemma build_M_inv (p : Params) sv M :
  build_M_index_lists (parent_and_siblings_indices p)
    = Some (index_M_lists p) →
  build_M p sv = Some M →
  let CE := parent_and_siblings_indices p ≫= group_correct in
  let IE := parent_and_siblings_indices p ≫= group_incorrect in
  let n := length (node_priors p) in
  ∃ correct pc pri M1,
    Forall2 (λ e x, sv !! e.2 = Some x) CE correct
    ∧ Forall2 (λ e x, sv !! e.2 = Some x) IE pc
    ∧ Forall2 (λ e x, node_priors p !! e.1.2 = Some x) IE pri
    ∧ writes2 (replicate n (replicate n 0))
        (zip (zip ((λ e, e.1.1) <$> CE) ((λ e, e.1.2) <$> CE)) correct)
      = Some M1
    ∧ writes2 M1
        (zip (zip ((λ e, e.1.1) <$> IE) ((λ e, e.1.2) <$> IE))
             (zip_with Rmult ((λ x, 1 - x) <$> pc) pri))
      = Some M.
Proof.
  intros Hlists Hrun CE IE n.
  apply build_M_index_lists_closed in Hlists
    as (E1 & E2 & E3 & E4 & E5 & E6 & E7).
  simpl in E1, E2, E3, E4, E5, E6, E7. fold CE in E1, E2, E3.
  fold IE in E4, E5, E6, E7.
  unfold build_M in Hrun. fold n in Hrun.
  rewrite E1, E2, E3, E4, E5, E6, E7 in Hrun.
  apply bind_Some in Hrun as (correct & Hcorrect & Hrun).
  apply bind_Some in Hrun as (M1 & HM1 & Hrun).
  apply bind_Some in Hrun as (pc & Hpc & Hrun).
  apply bind_Some in Hrun as (pri & Hpri & Hrun).
  apply bind_Some in Hrun as (ppnc & Hppnc & HM).
  pose proof (fancy_read_length _ _ _ Hcorrect) as Lc.
  pose proof (fancy_read_length _ _ _ Hpc) as Lpc.
  pose proof (fancy_read_length _ _ _ Hpri) as Lpri.
  rewrite length_fmap in Lc, Lpc, Lpri.
  rewrite np_binop_same_length in Hppnc by (rewrite length_fmap; congruence).
  injection Hppnc as <-.
  rewrite fancy_assign2_same_length in HM1 by (rewrite ?length_fmap; congruence).
  rewrite fancy_assign2_same_length in HM.
  2:{ by rewrite !length_fmap. }
  2:{ rewrite length_zip_with, !length_fmap. lia. }
  exists correct, pc, pri, M1.
  unfold fancy_read in Hcorrect, Hpc, Hpri.
  apply mapM_Some, Forall2_fmap_l in Hcorrect.
  apply mapM_Some, Forall2_fmap_l in Hpc.
  apply mapM_Some, Forall2_fmap_l in Hpri.
  done.
Qed.

(** The diagonal entry of a child is the skill of its parent. *)
Lemma build_M_diagonal (p : Params) sv M pa sibs r :
  build_M_index_lists (parent_and_siblings_indices p)
    = Some (index_M_lists p) →
  groups_disjoint (parent_and_siblings_indices p) →
  build_M p sv = Some M →
  pa :: sibs ∈ parent_and_siblings_indices p →
  r ∈ sibs →
  ∃ s, sv !! pa = Some s ∧ get2 M r r = Some s.
Proof.
  intros Hlists Hdisj Hrun Hg Hr.
  destruct (build_M_inv p sv M Hlists Hrun)
    as (correct & pc & pri & M1 & Fc & Fpc & Fpri & HM1 & HM).
  set (CE := parent_and_siblings_indices p ≫= group_correct) in *.
  set (IE := parent_and_siblings_indices p ≫= group_incorrect) in *.
  assert (Hin : (r, r, pa) ∈ CE).
  { apply group_correct_elem_of. exists pa, sibs. done. }
  apply list_elem_of_lookup in Hin as [k Hk].
  destruct (Forall2_lookup_l _ _ _ _ _ Fc Hk) as (s & Hs & Hsv).
  simpl in Hsv. exists s. split; [done|].
  rewrite (writes2_untouched _ _ _ r r HM).
  - apply (writes2_written _ _ _ r r s HM1).
    + intros w Hw Heq.
      apply zip3_fmap_elem_of in Hw as (k' & e & He & Hv & Hw).
      destruct (Forall2_lookup_l _ _ _ _ _ Fc He) as (x & Hx & Hsx).
      assert (Hinc : e ∈ CE) by (by eapply list_elem_of_lookup_2).
      apply group_correct_elem_of in Hinc as (pa' & sibs' & Hg' & Hs' & Ee).
      rewrite Hw in Heq. injection Heq as Heq1 Heq2.
      rewrite Heq1 in Hs'.
      rewrite Ee in Hsx. simpl in Hsx.
      rewrite (Hdisj pa' sibs' pa sibs r Hg' Hg Hs' Hr) in Hsx.
      congruence.
    + exists (r, r, s). split; [|done].
      by apply (zip3_fmap_lookup (λ e, e.1.1) (λ e, e.1.2) CE correct k (r, r, pa) s).
  - intros w Hw Heq.
    apply zip3_fmap_elem_of in Hw as (k' & e & He & Hv & Hw).
    assert (Hinc : e ∈ IE) by (by eapply list_elem_of_lookup_2).
    apply group_incorrect_elem_of in Hinc as (pa' & sibs' & _ & _ & _ & Hne & _).
    rewrite Hw in Heq. injection Heq as Heq1 Heq2. congruence.
Qed.

(** An off-diagonal entry of a sibling group is the probability of not
    being correct times the prior of the column. *)
Lemma build_M_off_diagonal (p : Params) sv M pa sibs r c :
  build_M_index_lists (parent_and_siblings_indices p)
    = Some (index_M_lists p) →
  groups_disjoint (parent_and_siblings_indices p) →
  build_M p sv = Some M →
  pa :: sibs ∈ parent_and_siblings_indices p →
  r ∈ sibs → c ∈ sibs → r ≠ c →
  ∃ s pr, sv !! pa = Some s ∧ node_priors p !! c = Some pr
          ∧ get2 M r c = Some ((1 - s) * pr).
Proof.
  intros Hlists Hdisj Hrun Hg Hr Hc Hne.
  destruct (build_M_inv p sv M Hlists Hrun)
    as (correct & pc & pri & M1 & Fc & Fpc & Fpri & HM1 & HM).
  set (CE := parent_and_siblings_indices p ≫= group_correct) in *.
  set (IE := parent_and_siblings_indices p ≫= group_incorrect) in *.
  assert (Hin : (r, c, pa) ∈ IE).
  { apply group_incorrect_elem_of. exists pa, sibs. done. }
  apply list_elem_of_lookup in Hin as [k Hk].
  destruct (Forall2_lookup_l _ _ _ _ _ Fpc Hk) as (s & Hs & Hsv).
  destruct (Forall2_lookup_l _ _ _ _ _ Fpri Hk) as (pr & Hpr & Hprv).
  simpl in Hsv, Hprv. exists s, pr. split; [done|]. split; [done|].
  assert (Hval : ∀ k' e v,
    IE !! k' = Some e →
    zip_with Rmult ((λ x, 1 - x) <$> pc) pri !! k' = Some v →
    ∃ s' pr', sv !! e.2 = Some s' ∧ node_priors p !! e.1.2 = Some pr'
              ∧ v = (1 - s') * pr').
  { intros k' e v He Hv.
    apply lookup_zip_with_Some in Hv as (a & pr' & -> & Ha & Hpr').
    rewrite list_lookup_fmap in Ha.
    destruct (pc !! k') as [s'|] eqn:Hs'; [|done]. injection Ha as <-.
    destruct (Forall2_lookup_l _ _ _ _ _ Fpc He) as (x & Hx & Hsx).
    destruct (Forall2_lookup_l _ _ _ _ _ Fpri He) as (x' & Hx' & Hpx).
    exists s', pr'. split; [congruence|]. split; [congruence|done]. }
  apply (writes2_written _ _ _ r c _ HM).
  - intros w Hw Heq.
    apply zip3_fmap_elem_of in Hw as (k' & e & He & Hv & Hw).
    destruct (Hval k' e w.2 He Hv) as (s' & pr' & Hs' & Hpr' & ->).
    assert (Hinc : e ∈ IE) by (by eapply list_elem_of_lookup_2).
    apply group_incorrect_elem_of in Hinc
      as (pa' & sibs' & Hg' & Hr' & _ & _ & Epa).
    rewrite Hw in Heq. injection Heq as Heq1 Heq2.
    rewrite Heq1 in Hr'. rewrite Heq2 in Hpr'. rewrite Epa in Hs'.
    rewrite (Hdisj pa' sibs' pa sibs r Hg' Hg Hr' Hr) in Hs'.
    congruence.
  - destruct (lookup_lt_is_Some_2
                (zip_with Rmult ((λ x, 1 - x) <$> pc) pri) k) as [v Hv].
    { rewrite length_zip_with, length_fmap.
      apply lookup_lt_Some in Hs, Hpr. lia. }
    exists (r, c, v). split; [|done].
    by apply (zip3_fmap_lookup (λ e, e.1.1) (λ e, e.1.2) IE _ k (r, c, pa) v).
Qed.
End ConfusionMatrix.

(** ** Evaluation of the model on concrete data *)

(** Evaluation that leaves the real numbers alone. *)
Ltac rsimpl :=
  lazy -[Rplus Rminus Rmult Rdiv Rinv Ropp IZR INR Q2R ln exp Rlt_dec Rle_dec
         Req_dec_T Rmax Rmin Int_part np_clip np_clip_min].

Section OneWorker.
Local Open Scope R_scope.
Local Transparent gmap_empty.

Lemma exp_ln_minus (a b : R) : 0 < a → 0 < b → exp (ln a - ln b) = a / b.
Proof.
  intros Ha Hb. unfold Rminus, Rdiv.
  rewrite exp_plus, exp_Ropp, !exp_ln by assumption. reflexivity.
Qed.

Lemma one_worker_prediction :
  predict_true_labels params_one_worker workers_one_worker false
    image_one_worker
  = Some {| image_id := "i1";
            z := [("w1", set_prob_prev_annos (anno_by "w1" "A") 1)];
            y := Some (new_label "A");
            risk := 1 / 19;
            finished := false; cv_pred := None |}.
Proof.
  rsimpl.
  destruct (Rlt_dec _ _) as [Hlt | _].
  - exfalso. revert Hlt.
    match goal with
    | |- ln ?a + _ - ln ?d1 + _ + _ < ln ?b + _ - ln ?d2 + _ + _ → False =>
        replace d2 with d1 by lra;
        assert (ln b < ln a) by (apply ln_increasing; lra); lra
    end.
  - rsimpl. do 2 f_equal.
    match goal with
    | |- context [exp (?X - ?X)] => replace (X - X) with 0 by lra
    end.
    rewrite exp_0.
    match goal with
    | |- context [exp (ln ?b + ?u - ln ?d2 + ?v + ?p
                       - (ln ?a + ?u - ln ?d1 + ?v + ?p))] =>
        replace (ln b + u - ln d2 + v + p - (ln a + u - ln d1 + v + p))
          with (ln b - ln a) by (replace d2 with d1 by lra; lra);
        rewrite exp_ln_minus by lra
    end.
    lra.
Qed.

(** C1, as stated, fails: the posterior is not 0.9 and the risk is not 0.1. *)
Lemma C1_posterior_is_not_nine_tenths :
  ¬ ∃ img',
      predict_true_labels params_one_worker workers_one_worker false
        image_one_worker = Some img'
      ∧ label <$> y img' = Some "A"
      ∧ posterior_of_prediction img' = 9 / 10
      ∧ risk img' = 1 / 10.
Proof.
  intros (img' & Hrun & _ & _ & Hrisk).
  rewrite one_worker_prediction in Hrun. injection Hrun as <-.
  simpl in Hrisk. lra.
Qed.

(** C1 (amended): for the taxonomy root -> {A, B} with priors 0.5 / 0.5
    and one worker of skill 0.9 at the root who reports "A",
    [predict_true_labels] selects the label A with posterior probability
    18/19 and risk 1/19: the off-diagonal entry of [M] is
    (1 - 0.9) * 0.5 = 0.05, so the posterior is 0.9 / (0.9 + 0.05). *)
Theorem C1_one_worker_posterior :
  initialize_data_structures params_one_worker
    = Some (flat_index params_one_worker)
  ∧ ∃ img',
      predict_true_labels params_one_worker workers_one_worker false
        image_one_worker = Some img'
      ∧ label <$> y img' = Some "A"
      ∧ posterior_of_prediction img' = 18 / 19
      ∧ risk img' = 1 / 19.
Proof.
  split; [vm_compute; reflexivity|].
  eexists. split; [apply one_worker_prediction|].
  unfold posterior_of_prediction. simpl. repeat split; lra.
Qed.
End OneWorker.

(** ** The index of a well-formed taxonomy *)
Section WellFormed.
Variables (d : Dataset) (idx : FlatIndex).
Hypothesis Hwf : taxonomy_wf (taxonomy d).
Hypothesis Hinit : initialize_data_structures d = Some idx.

Let t := taxonomy d.

Lemma keys_by_id_lookup i :
  keys_by_id t !! i = key <$> nodes_by_id t !! i.
Proof. unfold keys_by_id, nodes_by_id. apply list_lookup_fmap. Qed.

(** The ids of the index are the positions in [nodes_by_id]. *)
Lemma index_ids :
  ids_num_inner_nodes idx = length (inner_nodes t)
  ∧ (∀ i, integer_id_to_orig_node_key idx !! i = keys_by_id t !! i)
  ∧ (∀ k i, orig_node_key_to_integer_id idx !! k = Some i
            ↔ keys_by_id t !! i = Some k).
Proof.
  destruct (assign_integer_ids_spec t (wf_inner _ Hwf) (wf_keys _ Hwf))
    as (ids & Hids & Hn & Hi2k & Hk2i & _).
  destruct (initialize_data_structures_inv _ _ Hinit) as (_ & _ & Hids' & _).
  fold t in Hids'. rewrite Hids in Hids'. injection Hids' as ->. done.
Qed.

Lemma node_of_id_lookup i : node_of_id t idx i = nodes_by_id t !! i.
Proof.
  destruct index_ids as (_ & Hi2k & _). unfold node_of_id.
  rewrite Hi2k, keys_by_id_lookup.
  destruct (nodes_by_id t !! i) as [nd|] eqn:E; [|done]. simpl.
  apply (wf_nodes _ Hwf). by eapply list_elem_of_lookup_2.
Qed.

Lemma id_of_node i nd :
  nodes_by_id t !! i = Some nd →
  orig_node_key_to_integer_id idx !! key nd = Some i.
Proof.
  intros H. destruct index_ids as (_ & _ & Hk2i). apply Hk2i.
  by rewrite keys_by_id_lookup, H.
Qed.

Lemma node_of_key k i :
  orig_node_key_to_integer_id idx !! k = Some i →
  ∃ nd, nodes_by_id t !! i = Some nd ∧ key nd = k.
Proof.
  intros H. destruct index_ids as (_ & _ & Hk2i). apply Hk2i in H.
  rewrite keys_by_id_lookup in H.
  destruct (nodes_by_id t !! i) as [nd|]; [|done].
  injection H as <-. eauto.
Qed.

(** A node is determined by its key. *)
Lemma node_by_key_unique nd nd' :
  nd ∈ nodes_by_id t → nd' ∈ nodes_by_id t → key nd = key nd' → nd = nd'.
Proof.
  intros [i Hi]%list_elem_of_lookup [j Hj]%list_elem_of_lookup Hkey.
  assert (i = j) as ->; [|congruence].
  apply (NoDup_lookup _ _ _ (key nd) (wf_keys _ Hwf));
    rewrite keys_by_id_lookup.
  - by rewrite Hi.
  - by rewrite Hj, Hkey.
Qed.

Lemma inner_node_by_id i nd :
  inner_nodes t !! i = Some nd → nodes_by_id t !! i = Some nd.
Proof. intros H. unfold nodes_by_id. by apply lookup_app_l_Some. Qed.

(** The root is the node of id 0, and the only root. *)
Lemma index_root_is_0 i nd :
  node_of_id t idx i = Some nd → (is_root nd = true ↔ i = 0).
Proof. rewrite node_of_id_lookup. apply (wf_root _ Hwf). Qed.

(** The sibling groups of the index: the group of position [i] holds the
    id [i] of an inner node and the ids of its children. *)
Lemma index_group pa sibs :
  pa :: sibs ∈ parent_and_siblings_indices idx →
  ∃ nd, inner_nodes t !! pa = Some nd
        ∧ mapM (λ k, orig_node_key_to_integer_id idx !! k) (children nd)
          = Some sibs.
Proof.
  intros Hg.
  destruct (initialize_data_structures_inv _ _ Hinit)
    as (_ & _ & _ & _ & Hpasi & _).
  fold t in Hpasi. unfold build_parent_and_siblings_indices in Hpasi.
  apply mapM_Some in Hpasi.
  apply list_elem_of_lookup in Hg as [j Hj].
  destruct (Forall2_lookup_r _ _ _ _ _ Hpasi Hj) as (i & Hi & Hf).
  apply lookup_seq in Hi as [-> Hlt]. simpl in Hf.
  apply bind_Some in Hf as (nd & Hnd & Hf).
  apply bind_Some in Hf as (sibs' & Hsibs & Hf).
  injection Hf as <- <-.
  rewrite node_of_id_lookup in Hnd.
  destruct index_ids as (Hn & _). rewrite Hn in Hlt.
  exists nd. split; [|done].
  unfold nodes_by_id in Hnd. by rewrite lookup_app_l in Hnd.
Qed.

Lemma sibling_is_child nd sibs r :
  mapM (λ k, orig_node_key_to_integer_id idx !! k) (children nd) = Some sibs →
  r ∈ sibs →
  ∃ c, c ∈ children nd ∧ orig_node_key_to_integer_id idx !! c = Some r.
Proof.
  intros Hm [j Hj]%list_elem_of_lookup. apply mapM_Some in Hm.
  destruct (Forall2_lookup_r _ _ _ _ _ Hm Hj) as (c & Hc & Hf).
  exists c. split; [by eapply list_elem_of_lookup_2 | done].
Qed.

Lemma index_groups_disjoint :
  groups_disjoint (parent_and_siblings_indices idx).
Proof.
  intros pa sibs pa' sibs' r Hg Hg' Hr Hr'.
  destruct (index_group _ _ Hg) as (nd & Hnd & Hsibs).
  destruct (index_group _ _ Hg') as (nd' & Hnd' & Hsibs').
  destruct (sibling_is_child _ _ _ Hsibs Hr) as (c & Hc & Hid).
  destruct (sibling_is_child _ _ _ Hsibs' Hr') as (c' & Hc' & Hid').
  destruct (node_of_key _ _ Hid) as (cn & Hcn & <-).
  destruct (node_of_key _ _ Hid') as (cn' & Hcn' & <-).
  assert (cn' = cn) as -> by congruence.
  assert (Hin : nd ∈ inner_nodes t) by (by eapply list_elem_of_lookup_2).
  assert (Hin' : nd' ∈ inner_nodes t) by (by eapply list_elem_of_lookup_2).
  destruct (wf_children_parent _ Hwf nd (key cn) Hin Hc) as (x & Hx & Kx & Px).
  destruct (wf_children_parent _ Hwf nd' (key cn) Hin' Hc')
    as (x' & Hx' & Kx' & Px').
  assert (Hcn_in : cn ∈ nodes_by_id t) by (by eapply list_elem_of_lookup_2).
  rewrite (node_by_key_unique x cn Hx Hcn_in Kx) in Px.
  rewrite (node_by_key_unique x' cn Hx' Hcn_in Kx') in Px'.
  assert (Hkey : key nd = key nd') by congruence.
  apply inner_node_by_id in Hnd, Hnd'.
  apply (NoDup_lookup _ _ _ (key nd) (wf_keys _ Hwf));
    rewrite keys_by_id_lookup.
  - by rewrite Hnd.
  - by rewrite Hnd', Hkey.
Qed.

Lemma index_group_NoDup pa sibs :
  pa :: sibs ∈ parent_and_siblings_indices idx → NoDup sibs.
Proof.
  intros Hg. destruct (index_group _ _ Hg) as (nd & Hnd & Hsibs).
  assert (Hin : nd ∈ inner_nodes t) by (by eapply list_elem_of_lookup_2).
  pose proof (wf_children_NoDup _ Hwf nd Hin) as Hnd'.
  apply mapM_Some in Hsibs. apply NoDup_alt. intros i j r Hi Hj.
  destruct (Forall2_lookup_r _ _ _ _ _ Hsibs Hi) as (c & Hc & Hf).
  destruct (Forall2_lookup_r _ _ _ _ _ Hsibs Hj) as (c' & Hc' & Hf').
  destruct (node_of_key _ _ Hf) as (cn & Hcn & <-).
  destruct (node_of_key _ _ Hf') as (cn' & Hcn' & <-).
  assert (cn' = cn) as -> by congruence.
  by eapply NoDup_lookup.
Qed.

(** The path table holds, for each id, the ids of the ancestors of its
    node, root first, and then the id itself. *)
Lemma foldlM_path_step ids m : ∀ a st st',
  foldlM (path_step t ids) st (seq a m) = Some st' →
  (∀ i, ¬ (a ≤ i < a + m) →
        pt_root_to_node st' !! i = pt_root_to_node st !! i)
  ∧ (∀ i, a ≤ i < a + m →
        ∃ nd path,
          node_of_id t ids i = Some nd
          ∧ mapM (λ k, orig_node_key_to_integer_id ids !! k)
                 (reverse (ancestors nd) ++ [key nd]) = Some path
          ∧ pt_root_to_node st' !! i = Some path).
Proof.
  induction m as [|m IH]; intros a st st' Hrun.
  - injection Hrun as <-. split; [done|]. intros; lia.
  - cbn [seq foldlM] in Hrun.
    apply bind_Some in Hrun as (st1 & Hstep & Hrun).
    destruct (IH _ _ _ Hrun) as (Hout & Hin).
    unfold path_step in Hstep.
    apply bind_Some in Hstep as (nd & Hnd & Hstep).
    apply bind_Some in Hstep as (path & Hpath & Hstep).
    apply bind_Some in Hstep as (u & _ & Hstep).
    apply bind_Some in Hstep as (anno & _ & Hstep).
    assert (Hrtn : pt_root_to_node st1
                   = <[a := path]> (pt_root_to_node st)).
    { destruct (is_leaf nd).
      - apply bind_Some in Hstep as (cls & _ & Hstep). by injection Hstep as <-.
      - by injection Hstep as <-. }
    split.
    + intros i Hi. rewrite Hout by lia. rewrite Hrtn.
      apply lookup_insert_ne. lia.
    + intros i Hi. destruct (decide (i = a)) as [->|Hne].
      * exists nd, path. split; [done|]. split; [done|].
        rewrite Hout by lia. rewrite Hrtn. apply lookup_insert_eq.
      * apply Hin. lia.
Qed.

Lemma index_path a pa :
  root_to_node_path_list idx !! a = Some pa →
  ∃ nd, nodes_by_id t !! a = Some nd
        ∧ mapM (λ k, orig_node_key_to_integer_id idx !! k)
               (reverse (ancestors nd) ++ [key nd]) = Some pa.
Proof.
  intros Ha.
  destruct (initialize_data_structures_inv _ _ Hinit)
    as (_ & _ & _ & _ & _ & _ & Htables & _).
  fold t in Htables. unfold build_path_tables, xrange in Htables.
  apply foldlM_path_step in Htables as (Hout & Hin). simpl in Hout, Hin.
  destruct (decide (a < size (nodes t))) as [Hlt|Hge].
  - destruct (Hin a) as (nd & path & Hnd & Hpath & Hrtn); [lia|].
    rewrite node_of_id_lookup in Hnd. exists nd. split; [done|]. congruence.
  - rewrite Hout, lookup_empty in Ha by lia. done.
Qed.

Lemma index_path_of_node a nd :
  nodes_by_id t !! a = Some nd →
  ∃ pa, root_to_node_path_list idx !! a = Some pa
        ∧ mapM (λ k, orig_node_key_to_integer_id idx !! k)
               (reverse (ancestors nd) ++ [key nd]) = Some pa.
Proof.
  intros Ha.
  destruct (initialize_data_structures_inv _ _ Hinit)
    as (_ & _ & _ & _ & _ & _ & Htables & _).
  fold t in Htables. unfold build_path_tables, xrange in Htables.
  apply foldlM_path_step in Htables as (Hout & Hin). simpl in Hout, Hin.
  destruct (Hin a) as (nd' & path & Hnd & Hpath & Hrtn).
  { apply lookup_lt_Some in Ha. pose proof (wf_size _ Hwf) as Hs.
    unfold keys_by_id in Hs. rewrite length_fmap in Hs.
    unfold nodes_by_id, t in *. lia. }
  rewrite node_of_id_lookup in Hnd.
  assert (nd' = nd) as -> by congruence. eauto.
Qed.

(** Every prefix of a root path is the root path of its last node. *)
Lemma index_path_prefixes k : ∀ nd a pa,
  length (ancestors nd) = k →
  nodes_by_id t !! a = Some nd →
  root_to_node_path_list idx !! a = Some pa →
  length pa = S k
  ∧ ∀ i m, pa !! i = Some m →
      root_to_node_path_list idx !! m = Some (take (S i) pa).
Proof.
  induction k as [|k IH]; intros nd a pa Hk Hnd Hpa.
  - destruct (index_path _ _ Hpa) as (nd' & Hnd' & Hpath).
    assert (nd' = nd) as -> by congruence.
    destruct (ancestors nd); [|done]. simpl in Hpath.
    rewrite (id_of_node _ _ Hnd) in Hpath. injection Hpath as <-.
    split; [done|]. intros [|i] m Hi; [|done]. by injection Hi as <-.
  - destruct (index_path _ _ Hpa) as (nd' & Hnd' & Hpath).
    assert (nd' = nd) as -> by congruence.
    assert (Hin : nd ∈ nodes_by_id t) by (by eapply list_elem_of_lookup_2).
    pose proof (wf_ancestors _ Hwf nd Hin) as Hanc.
    destruct (parent nd) as [pk|].
    2:{ rewrite Hanc in Hk. done. }
    destruct Hanc as (pn & Hpn & <- & Hanc).
    rewrite Hanc in Hpath, Hk. rewrite reverse_cons in Hpath.
    apply mapM_Some, Forall2_app_inv_l in Hpath
      as (ppath & last & Hppath & Hlast & ->).
    apply Forall2_cons_inv_l in Hlast as (a' & ? & Ha' & ->%Forall2_nil_inv_l & ->).
    rewrite (id_of_node _ _ Hnd) in Ha'. injection Ha' as <-.
    apply list_elem_of_lookup in Hpn as [b Hb].
    apply inner_node_by_id in Hb.
    destruct (index_path_of_node _ _ Hb) as (ppath' & Hrtn & Hppath').
    apply mapM_Some in Hppath'.
    assert (ppath' = ppath) as ->.
    { eapply Forall2_unique; [exact Hppath' | exact Hppath |].
      intros; congruence. }
    destruct (IH pn b ppath) as (Hlen & Hpre); [simpl in Hk; lia | done | done |].
    split; [rewrite length_app; simpl; lia|].
    intros i m Hi.
    destruct (decide (i < length ppath)) as [Hlt|Hge].
    + rewrite lookup_app_l in Hi by done.
      rewrite take_app_le by lia. by apply Hpre.
    + rewrite lookup_app_r in Hi by lia.
      destruct (i - length ppath) as [|j] eqn:E; [|done].
      injection Hi as <-. rewrite Hpa. f_equal.
      rewrite take_ge; [done|]. rewrite length_app. simpl. lia.
Qed.

Lemma index_path_prefix a pa i m :
  root_to_node_path_list idx !! a = Some pa →
  pa !! i = Some m →
  root_to_node_path_list idx !! m = Some (take (S i) pa).
Proof.
  intros Hpa Hi. destruct (index_path _ _ Hpa) as (nd & Hnd & _).
  by apply (index_path_prefixes _ nd a pa eq_refl Hnd Hpa).
Qed.

Lemma index_paths_of_a_tree :
  paths_of_a_tree (root_to_node_path_list idx).
Proof.
  split.
  - intros a pa Hpa. apply NoDup_alt. intros i j m Hi Hj.
    pose proof (index_path_prefix _ _ _ _ Hpa Hi) as Ei.
    pose proof (index_path_prefix _ _ _ _ Hpa Hj) as Ej.
    rewrite Ei in Ej. injection Ej as Ej.
    apply (f_equal length) in Ej. rewrite !length_take in Ej.
    apply lookup_lt_Some in Hi, Hj. lia.
  - intros a b pa pb i m Hpa Hpb Hi Hj.
    pose proof (index_path_prefix _ _ _ _ Hpa Hi) as Ei.
    pose proof (index_path_prefix _ _ _ _ Hpb Hj) as Ej.
    congruence.
Qed.
End WellFormed.

(** The two class taxonomy is well formed. *)
Lemma taxonomy_AB_wf (pA pB : R) : taxonomy_wf (taxonomy_AB pA pB).
Proof.
  assert (Hall : ∀ nd, nd ∈ nodes_by_id (taxonomy_AB pA pB) →
                       nd = node_root ∨ nd = leaf_node "A" pA
                       ∨ nd = leaf_node "B" pB).
  { intros nd H. unfold nodes_by_id in H. simpl in H.
    apply elem_of_cons in H as [->|H]; [by left|].
    apply elem_of_cons in H as [->|H]; [by right; left|].
    apply list_elem_of_singleton in H as ->. by right; right. }
  split.
  - discriminate.
  - apply (bool_decide_unpack _). vm_compute. exact I.
  - vm_compute. reflexivity.
  - intros nd [-> | [-> | ->]]%Hall; vm_compute; reflexivity.
  - intros [|[|[|i]]] nd H; simpl in H; try discriminate;
      injection H as <-; simpl; split; (discriminate || reflexivity || lia).
  - intros nd ->%list_elem_of_singleton.
    apply (bool_decide_unpack _). vm_compute. exact I.
  - intros nd c ->%list_elem_of_singleton Hc. simpl in Hc.
    apply elem_of_cons in Hc as [->|Hc].
    + exists (leaf_node "A" pA). split; [|done]. right. left.
    + apply list_elem_of_singleton in Hc as ->.
      exists (leaf_node "B" pB). split; [|done]. right. right. left.
  - intros nd [-> | [-> | ->]]%Hall; simpl; [done| |];
      exists node_root; (split; [left | done]).
Qed.

(** The id maps of the index are those of [assign_integer_ids]. *)
Lemma initialize_data_structures_ids (d : Dataset) (idx : FlatIndex) :
  initialize_data_structures d = Some idx →
  assign_integer_ids (taxonomy d) = Some (id_maps idx).
Proof.
  unfold initialize_data_structures. intros H.
  repeat (apply bind_Some in H as (? & ? & H)).
  injection H as <-. simpl. assumption.
Qed.

(** C7: for a taxonomy that has an inner node and whose enumerations
    [inner_nodes()] and [leaf_nodes()] list each node of [nodes] once, the
    dictionaries built by [initialize_data_structures] are the two
    directions of one bijection; the inner nodes receive exactly the ids
    0 .. numInner-1 and the leaf nodes exactly numInner .. numNodes-1. *)
Theorem C7_integer_ids_bijection (d : Dataset) :
  let t := taxonomy d in
  let numInner := length (inner_nodes t) in
  let numNodes := size (nodes t) in
  inner_nodes t ≠ [] →
  NoDup (keys_by_id t) →
  size (nodes t) = length (keys_by_id t) →
  ∃ ids,
    assign_integer_ids t = Some ids
    ∧ (∀ idx, initialize_data_structures d = Some idx → id_maps idx = ids)
    ∧ (∀ k i, orig_node_key_to_integer_id ids !! k = Some i
              ↔ integer_id_to_orig_node_key ids !! i = Some k)
    ∧ (∀ i, is_Some (integer_id_to_orig_node_key ids !! i) ↔ i < numNodes)
    ∧ (∀ i, (∃ nd, nd ∈ inner_nodes t
                   ∧ orig_node_key_to_integer_id ids !! key nd = Some i)
            ↔ i < numInner)
    ∧ (∀ i, (∃ nd, nd ∈ leaf_nodes t
                   ∧ orig_node_key_to_integer_id ids !! key nd = Some i)
            ↔ numInner ≤ i < numNodes).
Proof.
  intros t numInner numNodes Hne Hnd Hsize.
  destruct (assign_integer_ids_spec t Hne Hnd)
    as (ids & Hids & Hn & Hi2k & Hk2i & _ & _).
  exists ids. split; [done|]. split.
  { intros idx Hidx. apply initialize_data_structures_ids in Hidx.
    fold t in Hidx. congruence. }
  assert (Hlen : length (keys_by_id t) = numInner + length (leaf_nodes t)).
  { unfold keys_by_id. by rewrite length_fmap, length_app. }
  split; [|split; [|split]].
  - intros k i. by rewrite Hk2i, Hi2k.
  - intros i. rewrite Hi2k. unfold numNodes. rewrite Hsize.
    apply lookup_lt_is_Some.
  - intros i. split.
    + intros (nd & Hin & Hid). apply Hk2i in Hid.
      apply list_elem_of_lookup in Hin as [j Hj].
      assert (Hj' : keys_by_id t !! j = Some (key nd)).
      { unfold keys_by_id. rewrite list_lookup_fmap, lookup_app_l, Hj; [done|].
        by eapply lookup_lt_Some. }
      rewrite <- (NoDup_lookup _ _ _ _ Hnd Hj' Hid).
      by eapply lookup_lt_Some.
    + intros Hlt.
      destruct (lookup_lt_is_Some_2 (inner_nodes t) i Hlt) as [nd Hj].
      exists nd. split; [by eapply list_elem_of_lookup_2|].
      apply Hk2i. unfold keys_by_id.
      by rewrite list_lookup_fmap, lookup_app_l, Hj.
  - intros i. unfold numNodes. rewrite Hsize, Hlen. split.
    + intros (nd & Hin & Hid). apply Hk2i in Hid.
      apply list_elem_of_lookup in Hin as [j Hj].
      assert (Hj' : keys_by_id t !! (numInner + j) = Some (key nd)).
      { unfold keys_by_id.
        rewrite list_lookup_fmap, lookup_app_r by (unfold numInner; lia).
        replace (numInner + j - length (inner_nodes t)) with j
          by (unfold numInner; lia).
        by rewrite Hj. }
      rewrite <- (NoDup_lookup _ _ _ _ Hnd Hj' Hid).
      apply lookup_lt_Some in Hj. lia.
    + intros [Hge Hlt].
      destruct (lookup_lt_is_Some_2 (leaf_nodes t) (i - numInner)) as [nd Hj];
        [lia|].
      exists nd. split; [by eapply list_elem_of_lookup_2|].
      apply Hk2i. unfold keys_by_id.
      rewrite list_lookup_fmap, lookup_app_r by (unfold numInner in *; lia).
      fold numInner. by rewrite Hj.
Qed.

Lemma C7_integer_ids_bijection_witness :
  let d := dataset_AB (1/2) (1/2) 0.8 0.8 in
  inner_nodes (taxonomy d) ≠ []
  ∧ NoDup (keys_by_id (taxonomy d))
  ∧ size (nodes (taxonomy d)) = length (keys_by_id (taxonomy d))
  ∧ ∃ ids,
      assign_integer_ids (taxonomy d) = Some ids
      ∧ (∀ idx, initialize_data_structures d = Some idx → id_maps idx = ids)
      ∧ (∀ k i, orig_node_key_to_integer_id ids !! k = Some i
                ↔ integer_id_to_orig_node_key ids !! i = Some k)
      ∧ (∀ i, is_Some (integer_id_to_orig_node_key ids !! i) ↔ i < 3)
      ∧ (∀ i, (∃ nd, nd ∈ inner_nodes (taxonomy d)
                     ∧ orig_node_key_to_integer_id ids !! key nd = Some i)
              ↔ i < 1)
      ∧ (∀ i, (∃ nd, nd ∈ leaf_nodes (taxonomy d)
                     ∧ orig_node_key_to_integer_id ids !! key nd = Some i)
              ↔ 1 ≤ i < 3).
Proof.
  assert (H1 : inner_nodes (taxonomy (dataset_AB (1/2) (1/2) 0.8 0.8)) ≠ [])
    by discriminate.
  assert (H2 : NoDup (keys_by_id (taxonomy (dataset_AB (1/2) (1/2) 0.8 0.8)))).
  { apply (bool_decide_unpack _). vm_compute. exact I. }
  assert (H3 : size (nodes (taxonomy (dataset_AB (1/2) (1/2) 0.8 0.8)))
               = length (keys_by_id (taxonomy (dataset_AB (1/2) (1/2) 0.8 0.8)))).
  { vm_compute. reflexivity. }
  repeat split; try assumption.
  exact (C7_integer_ids_bijection (dataset_AB (1/2) (1/2) 0.8 0.8) H1 H2 H3).
Defined.

Section SiblingRows.
Local Open Scope R_scope.
Local Transparent gmap_empty.

(** The sum of a row of [M] over a list of distinct siblings. *)
Lemma sibling_row_sum (p : Params) sv M pa sibs r s :
  build_M_index_lists (parent_and_siblings_indices p)
    = Some (index_M_lists p) →
  groups_disjoint (parent_and_siblings_indices p) →
  build_M p sv = Some M →
  pa :: sibs ∈ parent_and_siblings_indices p →
  sv !! pa = Some s →
  r ∈ sibs →
  ∀ l, NoDup l → l ⊆ sibs →
    ∃ row_vals other_priors,
      mapM (λ c, get2 M r c) l = Some row_vals
      ∧ fancy_read (node_priors p) (filter (λ c, c ≠ r) l) = Some other_priors
      ∧ np_sum row_vals
        = (if decide (r ∈ l) then s else 0) + (1 - s) * np_sum other_priors.
Proof.
  intros Hlists Hdisj Hrun Hg Hs Hr.
  induction l as [|c l IH]; intros Hnd Hsub.
  - exists [], []. split; [done|]. split; [done|]. simpl np_sum.
    case_decide as Hin; [by apply elem_of_nil in Hin | lra].
  - apply NoDup_cons in Hnd as [Hc Hnd].
    destruct IH as (vals & others & Hvals & Hothers & Hsum);
      [done | set_solver |].
    assert (Hcs : c ∈ sibs) by set_solver.
    destruct (decide (c = r)) as [->|Hne].
    + destruct (build_M_diagonal p sv M pa sibs r Hlists Hdisj Hrun Hg Hr)
        as (s' & Hs' & Hrr).
      assert (s' = s) as -> by congruence.
      exists (s :: vals), others. split; [|split].
      * simpl. rewrite Hrr. simpl. by rewrite Hvals.
      * rewrite filter_cons_False by (intros H; by apply H). done.
      * simpl. rewrite Hsum. rewrite decide_False by done.
        rewrite decide_True by left. lra.
    + destruct (build_M_off_diagonal p sv M pa sibs r c Hlists Hdisj Hrun Hg
                  Hr Hcs) as (s' & pr & Hs' & Hpr & Hrc); [done|].
      assert (s' = s) as -> by congruence.
      exists ((1 - s) * pr :: vals), (pr :: others). split; [|split].
      * simpl. rewrite Hrc. simpl. by rewrite Hvals.
      * rewrite filter_cons_True by done. unfold fancy_read in *. simpl.
        rewrite Hpr. simpl. by rewrite Hothers.
      * simpl. rewrite Hsum.
        destruct (decide (r ∈ l)) as [Hin|Hnin].
        -- rewrite decide_True by (by right). lra.
        -- rewrite decide_False; [lra|].
           intros [?|?]%elem_of_cons; congruence.
Qed.

(** C2, as stated, fails: for priors 0.5 / 0.5 and skill 0.9 the row of
    A over the sibling group {A, B} sums to 0.9 + 0.05 = 0.95. *)
Lemma C2_row_sum_is_not_one :
  ∃ M N row,
    initialize_data_structures params_one_worker
      = Some (flat_index params_one_worker)
    ∧ build_M_and_N params_one_worker (new_worker "w1" [9/10] []) = Some (M, N)
    ∧ [0; 1; 2]%nat ∈ parent_and_siblings_indices params_one_worker
    ∧ mapM (λ c, get2 M 1 c) [1; 2]%nat = Some row
    ∧ np_sum row = 19 / 20
    ∧ np_sum row ≠ 1.
Proof.
  eexists _, _, _. split; [vm_compute; reflexivity|].
  split; [rsimpl; reflexivity|].
  split; [left|]. split; [rsimpl; reflexivity|].
  simpl. split; lra.
Qed.

End SiblingRows.

(** ** The blind guess vector *)

(** [parent_indices] lists, for the ids of a range without root node, the
    id of the parent of each. *)
Lemma foldlM_parent_indices_step t ids n : ∀ a acc r,
  foldlM (parent_indices_step t ids) acc (seq a n) = Some r →
  (∀ i nd, a ≤ i < a + n → node_of_id t ids i = Some nd → is_root nd = false) →
  ∃ l, r = acc ++ l ∧ length l = n
       ∧ ∀ j, j < n →
           ∃ nd pk pid, node_of_id t ids (a + j) = Some nd
                        ∧ parent nd = Some pk
                        ∧ orig_node_key_to_integer_id ids !! pk = Some pid
                        ∧ l !! j = Some pid.
Proof.
  induction n as [|n IH]; intros a acc r Hrun Hnoroot; simpl in Hrun.
  - injection Hrun as <-. exists []. rewrite app_nil_r.
    repeat split. intros j Hj. lia.
  - apply bind_Some in Hrun as (acc1 & Hstep & Hrun).
    unfold parent_indices_step in Hstep.
    apply bind_Some in Hstep as (nd & Hnd & Hstep).
    rewrite (Hnoroot a nd) in Hstep by (done || lia).
    apply bind_Some in Hstep as (pk & Hpk & Hstep).
    apply bind_Some in Hstep as (pid & Hpid & Hstep).
    injection Hstep as <-.
    destruct (IH (S a) _ r Hrun) as (l & -> & Hlen & Hl).
    { intros i nd' Hi. apply Hnoroot. lia. }
    exists (pid :: l). rewrite <- app_assoc. split; [done|].
    split; [simpl; lia|].
    intros [|j] Hj.
    + exists nd, pk, pid. by rewrite Nat.add_0_r.
    + destruct (Hl j) as (nd' & pk' & pid' & ? & ? & ? & ?); [lia|].
      exists nd', pk', pid'. by replace (a + S j) with (S a + j) by lia.
Qed.

Lemma build_parent_indices_spec t ids n pind :
  build_parent_indices t ids n = Some pind →
  (∀ i nd, node_of_id t ids i = Some nd → (is_root nd = true ↔ i = 0)) →
  length pind = n - 1
  ∧ ∀ i, 0 < i < n →
      ∃ nd pk pid, node_of_id t ids i = Some nd
                   ∧ parent nd = Some pk
                   ∧ orig_node_key_to_integer_id ids !! pk = Some pid
                   ∧ pind !! (i - 1) = Some pid.
Proof.
  unfold build_parent_indices, xrange. intros Hrun Hroot.
  destruct n as [|n]; simpl in Hrun.
  { injection Hrun as <-. split; [done|]. intros; lia. }
  apply bind_Some in Hrun as (acc1 & Hstep & Hrun).
  unfold parent_indices_step in Hstep.
  apply bind_Some in Hstep as (nd0 & Hnd0 & Hstep).
  rewrite (proj2 (Hroot 0 nd0 Hnd0)) in Hstep by done.
  injection Hstep as <-.
  destruct (foldlM_parent_indices_step t ids n 1 [] pind Hrun)
    as (l & -> & Hlen & Hl).
  { intros i nd Hi Hnd. destruct (is_root nd) eqn:E; [|done].
    apply (Hroot i nd Hnd) in E. lia. }
  simpl. split; [lia|]. intros i Hi.
  destruct (Hl (i - 1)) as (nd & pk & pid & ? & ? & ? & ?); [lia|].
  exists nd, pk, pid. by replace (1 + (i - 1)) with i in * by lia.
Qed.

Lemma build_node_priors_spec t ids n priors :
  build_node_priors t ids n = Some priors →
  length priors = n
  ∧ ∀ i nd, i < n → node_of_id t ids i = Some nd →
      priors !! i = Some (data_prob nd).
Proof.
  unfold build_node_priors, xrange. intros H.
  pose proof (length_mapM _ _ _ H) as Hlen. rewrite length_seq in Hlen.
  split; [done|]. intros i nd Hi Hnd.
  apply mapM_Some in H.
  destruct (Forall2_lookup_l _ _ _ i i H) as (x & Hx & Hf).
  { by apply lookup_seq_lt. }
  rewrite Hnd in Hf. simpl in Hf. congruence.
Qed.

Section BlindGuess.
Local Open Scope R_scope.
Local Transparent gmap_empty.

(** The entries of the blind guess vector. *)
Lemma build_N_entries (d : Dataset) (idx : FlatIndex) (w : Worker)
    (sv : list R) (M : list (list R)) (N : list R) :
  let t := taxonomy d in
  taxonomy_wf t →
  initialize_data_structures d = Some idx →
  skill_vector w = Some sv →
  build_M_and_N {| dataset := d; flat_index := idx |} w = Some (M, N) →
  ∀ i nd, (i < size (nodes t))%nat → node_of_id t idx i = Some nd →
    if is_root nd then N !! i = Some 1
    else ∃ pk pid s pr,
           parent nd = Some pk
           ∧ orig_node_key_to_integer_id idx !! pk = Some pid
           ∧ sv !! pid = Some s
           ∧ node_priors idx !! i = Some pr
           ∧ N !! i = Some ((1 - s) * pr).
Proof.
  intros t Hwf Hinit Hsv Hrun i nd Hi Hnd.
  pose proof (index_root_is_0 d idx Hwf Hinit) as Hroot.
  apply initialize_data_structures_inv in Hinit
    as (_ & _ & _ & Hpriors & _ & Hpind & _).
  fold t in Hpriors, Hpind.
  apply build_node_priors_spec in Hpriors as [Lpriors Hpriors].
  apply (build_parent_indices_spec _ _ _ _ Hpind) in Hroot as Hstruct.
  destruct Hstruct as [Lpind Hstruct].
  unfold build_M_and_N in Hrun. rewrite Hsv in Hrun. simpl in Hrun.
  apply bind_Some in Hrun as (M' & _ & Hrun).
  apply bind_Some in Hrun as (N' & HN & Hrun).
  injection Hrun as _ ->.
  unfold build_N in HN. simpl in HN. fold t in HN.
  apply bind_Some in HN as (pc & Hpc & HN).
  apply bind_Some in HN as (ppnc & Hppnc & HN).
  apply bind_Some in HN as (tl & Htl & HN).
  injection HN as <-.
  pose proof (fancy_read_length _ _ _ Hpc) as Lpc.
  rewrite np_binop_same_length in Hppnc
    by (rewrite length_drop, length_fmap; lia).
  injection Hppnc as <-.
  rewrite np_broadcast_to_same in Htl.
  2:{ rewrite length_zip_with, !length_drop, length_fmap, length_replicate. lia. }
  injection Htl as <-.
  destruct (is_root nd) eqn:Eroot.
  - apply (Hroot i nd Hnd) in Eroot. subst i.
    destruct (size (nodes t)); [lia|]. done.
  - assert (0 < i)%nat as Hpos.
    { destruct i; [|lia]. rewrite (proj2 (Hroot 0%nat nd Hnd)) in Eroot; done. }
    destruct (Hstruct i) as (nd' & pk & pid & Hnd' & Hpk & Hpid & Hpi); [lia|].
    assert (nd' = nd) as -> by congruence.
    destruct (fancy_read_lookup _ _ _ _ _ Hpc Hpi) as (s & Hs & Hsv').
    exists pk, pid, s, (data_prob nd).
    split; [done|]. split; [done|]. split; [done|].
    split; [by apply Hpriors|].
    rewrite lookup_app_r; rewrite length_take, length_replicate; [|lia].
    replace (i - 1 `min` size (nodes t))%nat with (i - 1)%nat by lia.
    rewrite Rmult_comm. apply lookup_zip_with_Some.
    exists (data_prob nd), (1 - s). split; [done|]. split.
    + rewrite lookup_drop. replace (1 + (i - 1))%nat with i by lia.
      by apply Hpriors.
    + by rewrite list_lookup_fmap, Hs.
Qed.

End BlindGuess.

(** ** [build_M_and_N] returns *)

Lemma fancy_read_total {A} (v : list A) idx :
  (∀ i, i ∈ idx → i < length v) → is_Some (fancy_read v idx).
Proof.
  intros H. apply mapM_is_Some, Forall_forall. intros i Hi.
  apply lookup_lt_is_Some. by apply H.
Qed.

(** Writes at positions inside the matrix succeed. *)
Lemma writes2_total {A} (ws : list (nat * nat * A)) : ∀ M,
  (∀ w, w ∈ ws → ∃ n, length <$> (M !! w.1.1) = Some n ∧ w.1.2 < n) →
  is_Some (writes2 M ws).
Proof.
  unfold writes2. induction ws as [|w ws IH]; intros M Hin; [by eexists|].
  destruct (Hin w) as (n & Hrow & Hc); [left|].
  destruct (M !! w.1.1) as [row|] eqn:Er; [|done].
  injection Hrow as <-.
  destruct (lookup_lt_is_Some_2 row w.1.2 Hc) as [x Hx].
  assert (Hset : set2 M w.1.1 w.1.2 w.2
                 = Some (<[w.1.1 := <[w.1.2 := w.2]> row]> M)).
  { unfold set2, set1. rewrite Er. simpl. rewrite Hx. done. }
  cbn [foldlM]. rewrite Hset. cbn [mbind option_bind].
  apply IH. intros w' Hw'.
  destruct (Hin w') as (n & Hrow' & Hc'); [by right|].
  exists n. split; [|done].
  destruct (set2_shape _ _ _ _ _ Hset) as [_ Hshape]. by rewrite Hshape.
Qed.

Lemma zip3_in_range {A} (rows cols : list nat) (vals : list A) (M : list (list A)) n :
  length M = n → (∀ i row, M !! i = Some row → length row = n) →
  (∀ r, r ∈ rows → r < n) → (∀ c, c ∈ cols → c < n) →
  ∀ w, w ∈ zip (zip rows cols) vals →
       ∃ m, length <$> (M !! w.1.1) = Some m ∧ w.1.2 < m.
Proof.
  intros HM Hrows Hr Hc w Hw.
  apply list_elem_of_lookup in Hw as [k Hk].
  apply lookup_zip_with_Some in Hk as (rc & v & -> & Hrc & Hv).
  apply lookup_zip_with_Some in Hrc as (r & c & -> & Hr' & Hc').
  simpl. apply list_elem_of_lookup_2 in Hr', Hc'.
  destruct (lookup_lt_is_Some_2 M r) as [row Hrow]; [rewrite HM; auto|].
  exists n. rewrite Hrow. simpl. split; [f_equal; eauto | auto].
Qed.

Section Totality.
Variables (d : Dataset) (idx : FlatIndex).
Hypothesis Hwf : taxonomy_wf (taxonomy d).
Hypothesis Hinit : initialize_data_structures d = Some idx.

Let t := taxonomy d.
Let p := {| dataset := d; flat_index := idx |}.

Lemma index_num_nodes :
  length (node_priors idx) = length (nodes_by_id t)
  ∧ size (nodes t) = length (nodes_by_id t).
Proof.
  destruct (initialize_data_structures_inv _ _ Hinit)
    as (_ & _ & _ & Hpriors & _).
  apply build_node_priors_spec in Hpriors as [L _].
  pose proof (wf_size _ Hwf) as Hs.
  unfold keys_by_id in Hs. rewrite length_fmap in Hs.
  unfold nodes_by_id, t in *. split; lia.
Qed.

Lemma index_group_in_range pa sibs :
  pa :: sibs ∈ parent_and_siblings_indices idx →
  pa < length (inner_nodes t)
  ∧ ∀ r, r ∈ sibs → r < length (node_priors idx).
Proof.
  intros Hg. destruct (index_group d idx Hwf Hinit _ _ Hg) as (nd & Hnd & Hs).
  split; [by eapply lookup_lt_Some|]. intros r Hr.
  destruct (sibling_is_child idx _ _ _ Hs Hr) as (c & _ & Hid).
  destruct (node_of_key d idx Hwf Hinit _ _ Hid) as (cn & Hcn & _).
  apply lookup_lt_Some in Hcn. destruct index_num_nodes as [-> _]. done.
Qed.

Lemma index_parent_in_range pid :
  pid ∈ parent_indices idx → pid < length (inner_nodes t).
Proof.
  intros [j Hj]%list_elem_of_lookup.
  destruct (initialize_data_structures_inv _ _ Hinit)
    as (_ & _ & _ & _ & _ & Hpind & _).
  apply build_parent_indices_spec in Hpind as [Hlen Hstruct].
  2:{ apply (index_root_is_0 d idx Hwf Hinit). }
  apply lookup_lt_Some in Hj as Hlt.
  destruct (Hstruct (S j)) as (nd & pk & pid' & Hnd & Hpk & Hpid & Hpi);
    [lia|].
  replace (S j - 1) with j in Hpi by lia.
  assert (pid' = pid) as -> by congruence.
  rewrite (node_of_id_lookup d idx Hwf Hinit) in Hnd.
  pose proof (wf_ancestors _ Hwf nd (list_elem_of_lookup_2 _ _ _ Hnd)) as Hanc.
  rewrite Hpk in Hanc. destruct Hanc as (pn & Hpn & Hkey & _).
  apply list_elem_of_lookup in Hpn as [b Hb].
  pose proof (id_of_node d idx Hwf Hinit b pn (inner_node_by_id d b pn Hb))
    as Hid.
  rewrite Hkey in Hid. assert (pid = b) as -> by congruence.
  by eapply lookup_lt_Some.
Qed.

(** With one skill for each inner node, [build_M_and_N] returns. *)
Lemma build_M_and_N_total (w : Worker) (sv : list R) :
  skill_vector w = Some sv →
  length (inner_nodes t) ≤ length sv →
  is_Some (build_M_and_N p w).
Proof.
  intros Hsv Hlen. unfold build_M_and_N. rewrite Hsv. cbn [mbind option_bind].
  destruct (initialize_data_structures_inv _ _ Hinit)
    as (_ & _ & _ & _ & _ & Hpind & _ & _ & Hlists & _).
  apply build_M_index_lists_closed in Hlists
    as (E1 & E2 & E3 & E4 & E5 & E6 & E7).
  simpl in E1, E2, E3, E4, E5, E6, E7.
  set (CE := parent_and_siblings_indices idx ≫= group_correct) in *.
  set (IE := parent_and_siblings_indices idx ≫= group_incorrect) in *.
  set (n := length (node_priors idx)).
  assert (HCE : ∀ e, e ∈ CE → e.1.1 < n ∧ e.1.2 < n ∧ e.2 < length sv).
  { intros e (pa & sibs & Hg & Hs & ->)%group_correct_elem_of.
    destruct (index_group_in_range _ _ Hg) as [Hpa Hr]. simpl.
    pose proof (Hr _ Hs). unfold n. lia. }
  assert (HIE : ∀ e, e ∈ IE → e.1.1 < n ∧ e.1.2 < n ∧ e.2 < length sv).
  { intros e (pa & sibs & Hg & Hs & Hs' & _ & ->)%group_incorrect_elem_of.
    destruct (index_group_in_range _ _ Hg) as [Hpa Hr].
    pose proof (Hr _ Hs). pose proof (Hr _ Hs'). unfold n. lia. }
  assert (HM : is_Some (build_M p sv)).
  { unfold build_M. cbn [flat_index p]. fold n.
    rewrite E1, E2, E3, E4, E5, E6, E7.
    destruct (fancy_read_total sv ((λ e, e.2) <$> CE)) as [correct Hc].
    { intros i (e & -> & He)%list_elem_of_fmap. by apply HCE. }
    rewrite Hc. cbn [mbind option_bind].
    pose proof (fancy_read_length _ _ _ Hc) as Lc. rewrite length_fmap in Lc.
    rewrite fancy_assign2_same_length by (rewrite ?length_fmap; congruence).
    destruct (writes2_total
                (zip (zip ((λ e, e.1.1) <$> CE) ((λ e, e.1.2) <$> CE)) correct)
                (replicate n (replicate n 0%R))) as [M1 HM1].
    { apply (zip3_in_range _ _ _ _ n).
      - apply length_replicate.
      - intros i row [-> _]%lookup_replicate. apply length_replicate.
      - intros r (e & -> & He)%list_elem_of_fmap. by apply HCE.
      - intros c (e & -> & He)%list_elem_of_fmap. by apply HCE. }
    rewrite HM1. cbn [mbind option_bind].
    destruct (fancy_read_total sv ((λ e, e.2) <$> IE)) as [pc Hpc].
    { intros i (e & -> & He)%list_elem_of_fmap. by apply HIE. }
    rewrite Hpc. cbn [mbind option_bind].
    destruct (fancy_read_total (node_priors idx) ((λ e, e.1.2) <$> IE))
      as [pri Hpri].
    { intros i (e & -> & He)%list_elem_of_fmap. by apply HIE. }
    rewrite Hpri. cbn [mbind option_bind].
    pose proof (fancy_read_length _ _ _ Hpc) as Lpc.
    pose proof (fancy_read_length _ _ _ Hpri) as Lpri.
    rewrite length_fmap in Lpc, Lpri.
    rewrite np_binop_same_length by (rewrite length_fmap; congruence).
    cbn [mbind option_bind].
    rewrite fancy_assign2_same_length.
    2:{ by rewrite !length_fmap. }
    2:{ rewrite length_zip_with, !length_fmap. lia. }
    destruct (writes2_shape _ _ _ HM1) as [L1 S1].
    apply writes2_total, (zip3_in_range _ _ _ _ n).
    - rewrite L1. apply length_replicate.
    - intros i row Hrow.
      pose proof (S1 i) as Hs. rewrite Hrow in Hs.
      destruct (replicate n (replicate n 0%R) !! i) as [row0|] eqn:E0;
        simpl in Hs; [|done].
      apply lookup_replicate in E0 as [-> _]. rewrite length_replicate in Hs.
      by injection Hs.
    - intros r (e & -> & He)%list_elem_of_fmap. by apply HIE.
    - intros c (e & -> & He)%list_elem_of_fmap. by apply HIE. }
  destruct HM as [M HM]. rewrite HM. cbn [mbind option_bind].
  assert (HN : is_Some (build_N p sv)).
  { unfold build_N. cbn [flat_index dataset p]. fold t.
    destruct (fancy_read_total sv (parent_indices idx)) as [pc Hpc].
    { intros i Hi. pose proof (index_parent_in_range i Hi). lia. }
    rewrite Hpc. cbn [mbind option_bind].
    pose proof (fancy_read_length _ _ _ Hpc) as Lpc.
    apply build_parent_indices_spec in Hpind as [Lpind _].
    2:{ apply (index_root_is_0 d idx Hwf Hinit). }
    fold t in Lpind.
    destruct index_num_nodes as [Ln Ls].
    rewrite np_binop_same_length
      by (rewrite length_drop, length_fmap; lia).
    cbn [mbind option_bind].
    rewrite np_broadcast_to_same; [by eexists|].
    rewrite length_zip_with, !length_drop, length_fmap, length_replicate. lia. }
  destruct HN as [N HN]. rewrite HN. by eexists.
Qed.
End Totality.

(** ** The confusion structures of a worker *)
Section ConfusionStructures.
Local Open Scope R_scope.
Local Transparent gmap_empty.

(** C2 (amended): over the index of a well-formed taxonomy, for every
    skill vector (one entry for each inner node) [build_M_and_N] returns,
    and for every sibling group (the children of one inner node) the row
    of [M] of a sibling [r], restricted to the columns of the group and
    including the diagonal, sums to
    [skill[parent] + (1 - skill[parent]) * sum of priors[c] for c <> r];
    the sum is 1 only when the priors of the other siblings sum to 1. *)
Theorem C2_sibling_row_sum (d : Dataset) (idx : FlatIndex) (w : Worker)
    (sv : list R) :
  let p := {| dataset := d; flat_index := idx |} in
  taxonomy_wf (taxonomy d) →
  initialize_data_structures d = Some idx →
  skill_vector w = Some sv →
  (length (inner_nodes (taxonomy d)) ≤ length sv)%nat →
  ∃ M N,
    build_M_and_N p w = Some (M, N)
    ∧ ∀ pa sibs r,
        pa :: sibs ∈ parent_and_siblings_indices idx →
        r ∈ sibs →
        ∃ s row_vals other_priors,
          sv !! pa = Some s
          ∧ mapM (λ c, get2 M r c) sibs = Some row_vals
          ∧ fancy_read (node_priors idx) (filter (λ c, c ≠ r) sibs)
            = Some other_priors
          ∧ np_sum row_vals = s + (1 - s) * np_sum other_priors.
Proof.
  intros p Hwf Hinit Hsv Hlen.
  destruct (build_M_and_N_total d idx Hwf Hinit w sv Hsv Hlen)
    as [[M N] Hrun].
  exists M, N. split; [exact Hrun|]. intros pa sibs r Hg Hr.
  pose proof (index_groups_disjoint d idx Hwf Hinit) as Hdisj.
  pose proof (index_group_NoDup d idx Hwf Hinit pa sibs Hg) as Hnd.
  apply initialize_data_structures_inv in Hinit
    as (_ & _ & _ & _ & _ & _ & _ & _ & Hlists & _).
  unfold build_M_and_N in Hrun. rewrite Hsv in Hrun. simpl in Hrun.
  apply bind_Some in Hrun as (M' & HM & Hrun).
  apply bind_Some in Hrun as (N' & HN & Hrun).
  injection Hrun as -> ->.
  destruct (build_M_diagonal p sv M pa sibs r Hlists Hdisj HM Hg Hr)
    as (s & Hs & _).
  destruct (sibling_row_sum p sv M pa sibs r s Hlists Hdisj HM Hg Hs Hr
              sibs Hnd) as (vals & others & Hvals & Hothers & Hsum); [done|].
  exists s, vals, others. rewrite decide_True in Hsum by done. done.
Qed.

Lemma C2_sibling_row_sum_witness :
  let d := dataset_AB (1/2) (1/2) 0.8 0.8 in
  let idx := index_AB (1/2) (1/2) 0.8 0.8 in
  let w := new_worker "w1" [9/10] [] in
  taxonomy_wf (taxonomy d)
  ∧ initialize_data_structures d = Some idx
  ∧ skill_vector w = Some [9/10]
  ∧ (length (inner_nodes (taxonomy d)) ≤ length [9/10])%nat
  ∧ ∃ M N,
      build_M_and_N {| dataset := d; flat_index := idx |} w = Some (M, N)
      ∧ ∀ pa sibs r,
          pa :: sibs ∈ parent_and_siblings_indices idx →
          r ∈ sibs →
          ∃ s row_vals other_priors,
            [9/10] !! pa = Some s
            ∧ mapM (λ c, get2 M r c) sibs = Some row_vals
            ∧ fancy_read (node_priors idx) (filter (λ c, c ≠ r) sibs)
              = Some other_priors
            ∧ np_sum row_vals = s + (1 - s) * np_sum other_priors.
Proof.
  intros d idx w.
  assert (H0 : taxonomy_wf (taxonomy d)) by apply taxonomy_AB_wf.
  assert (H3 : skill_vector w = Some [9/10]) by reflexivity.
  assert (H4 : (length (inner_nodes (taxonomy d)) ≤ length [9/10])%nat)
    by (simpl; lia).
  assert (H1 : initialize_data_structures d = Some idx)
    by (vm_compute; reflexivity).
  split; [exact H0|]. split; [exact H1|]. split; [exact H3|].
  split; [exact H4|].
  exact (C2_sibling_row_sum d idx w [9/10] H0 H1 H3 H4).
Defined.

(** C6: over the index of a well-formed taxonomy (its root is the first
    inner node, so that it has the integer id 0 that the source reserves
    for it), for every skill vector (one entry for each inner node) the
    blind guess vector [N] returned by [build_M_and_N] has
    [N[root] = 1] and, for every other node,
    [N[node] = (1 - skill[parent(node)]) * priors[node]]. *)
Theorem C6_blind_guess_vector (d : Dataset) (idx : FlatIndex) (w : Worker)
    (sv : list R) :
  let t := taxonomy d in
  taxonomy_wf t →
  initialize_data_structures d = Some idx →
  skill_vector w = Some sv →
  (length (inner_nodes t) ≤ length sv)%nat →
  ∃ M N,
    build_M_and_N {| dataset := d; flat_index := idx |} w = Some (M, N)
    ∧ ∀ i nd, (i < size (nodes t))%nat → node_of_id t idx i = Some nd →
        if is_root nd then N !! i = Some 1
        else ∃ pk pid s pr,
               parent nd = Some pk
               ∧ orig_node_key_to_integer_id idx !! pk = Some pid
               ∧ sv !! pid = Some s
               ∧ node_priors idx !! i = Some pr
               ∧ N !! i = Some ((1 - s) * pr).
Proof.
  intros t Hwf Hinit Hsv Hlen.
  destruct (build_M_and_N_total d idx Hwf Hinit w sv Hsv Hlen)
    as [[M N] Hrun].
  exists M, N. split; [exact Hrun|].
  exact (build_N_entries d idx w sv M N Hwf Hinit Hsv Hrun).
Qed.

Lemma C6_blind_guess_vector_witness :
  let d := dataset_AB (1/2) (1/2) 0.8 0.8 in
  let idx := index_AB (1/2) (1/2) 0.8 0.8 in
  let w := new_worker "w1" [9/10] [] in
  taxonomy_wf (taxonomy d)
  ∧ initialize_data_structures d = Some idx
  ∧ skill_vector w = Some [9/10]
  ∧ (length (inner_nodes (taxonomy d)) ≤ length [9/10])%nat
  ∧ ∃ M N,
      build_M_and_N {| dataset := d; flat_index := idx |} w = Some (M, N)
      ∧ ∀ i nd, (i < size (nodes (taxonomy d)))%nat →
          node_of_id (taxonomy d) idx i = Some nd →
          if is_root nd then N !! i = Some 1
          else ∃ pk pid s pr,
                 parent nd = Some pk
                 ∧ orig_node_key_to_integer_id idx !! pk = Some pid
                 ∧ [9/10] !! pid = Some s
                 ∧ node_priors idx !! i = Some pr
                 ∧ N !! i = Some ((1 - s) * pr).
Proof.
  intros d idx w.
  assert (H0 : taxonomy_wf (taxonomy d)) by apply taxonomy_AB_wf.
  assert (H3 : skill_vector w = Some [9/10]) by reflexivity.
  assert (H4 : (length (inner_nodes (taxonomy d)) ≤ length [9/10])%nat)
    by (simpl; lia).
  assert (H1 : initialize_data_structures d = Some idx)
    by (vm_compute; reflexivity).
  split; [exact H0|]. split; [exact H1|]. split; [exact H3|].
  split; [exact H4|].
  exact (C6_blind_guess_vector d idx w [9/10] H0 H1 H3 H4).
Defined.
End ConfusionStructures.

(** ** The chain of prior responses *)
Section PriorResponses.
Local Open Scope R_scope.

Variables (num_nodes : nat) (priors : list R).
Variables (worker_labels : list nat) (worker_prob_trust : list R).
Hypothesis trust_length : length worker_prob_trust = length worker_labels.
Hypothesis labels_in_range :
  Forall (λ l, (l < num_nodes)%nat ∧ is_Some (priors !! l)) worker_labels.

Lemma label_lookup t :
  (t < length worker_labels)%nat →
  ∃ l pt prior, worker_labels !! t = Some l ∧ worker_prob_trust !! t = Some pt
                ∧ priors !! l = Some prior ∧ (l < num_nodes)%nat.
Proof using trust_length labels_in_range.
  intros Ht.
  destruct (lookup_lt_is_Some_2 worker_labels t Ht) as [l Hl].
  destruct (lookup_lt_is_Some_2 worker_prob_trust t) as [pt Hpt]; [lia|].
  rewrite Forall_lookup in labels_in_range.
  destruct (labels_in_range t l Hl) as [Hlt [prior Hprior]].
  exists l, pt, prior. done.
Qed.

Lemma first_response_row_lookup previous_label worker_label pt row zl :
  first_response_row num_nodes priors previous_label worker_label pt = Some row →
  (zl < num_nodes)%nat →
  ∃ prior, priors !! worker_label = Some prior
           ∧ length row = num_nodes
           ∧ row !! zl
             = Some (response_given previous_label pt ((1 - pt) * prior) zl).
Proof.
  unfold first_response_row, xrange. intros H Hzl.
  apply bind_Some in H as (prior & Hprior & H). injection H as <-.
  exists prior. split; [done|]. split; [by rewrite length_fmap, length_seq|].
  rewrite list_lookup_fmap, lookup_seq_lt by done. reflexivity.
Qed.

Lemma next_response_row_lookup prev_row previous_label worker_label pt row zl :
  next_response_row num_nodes priors prev_row previous_label worker_label pt
    = Some row →
  length prev_row = num_nodes →
  (zl < num_nodes)%nat →
  ∃ prior ppr x,
    priors !! worker_label = Some prior
    ∧ prev_row !! previous_label = Some ppr
    ∧ prev_row !! zl = Some x
    ∧ length row = num_nodes
    ∧ row !! zl
      = Some (response_given previous_label pt ((1 - pt) * prior) zl * ppr
              / (pt * x + np_sum ((λ y, (1 - pt) * prior * y) <$> prev_row)
                 - (1 - pt) * prior * x)).
Proof.
  unfold next_response_row. intros H Hlen Hzl.
  apply bind_Some in H as (prior & Hprior & H).
  apply bind_Some in H as (ppr & Hppr & H).
  apply bind_Some in H as (num & Hnum & H). injection H as <-.
  destruct (lookup_lt_is_Some_2 prev_row zl) as [x Hx]; [lia|].
  exists prior, ppr, x. do 3 (split; [done|]).
  pose proof (set1_length _ _ _ _ Hnum) as Lnum.
  rewrite length_replicate in Lnum. split.
  - rewrite !length_zip_with, !length_fmap. lia.
  - apply lookup_zip_with_Some.
    exists (response_given previous_label pt ((1 - pt) * prior) zl * ppr),
           (pt * x + np_sum ((λ y, (1 - pt) * prior * y) <$> prev_row)
            - (1 - pt) * prior * x).
    split; [done|]. split.
    + rewrite (set1_lookup _ _ _ _ zl Hnum). unfold response_given.
      destruct (decide (previous_label = zl)) as [->|Hne].
      * by rewrite decide_True.
      * rewrite decide_False by done.
        by rewrite lookup_replicate_2.
    + apply lookup_zip_with_Some. exists (pt * x + np_sum ((λ y, (1 - pt) * prior * y) <$> prev_row)), ((1 - pt) * prior * x).
      split; [done|]. by rewrite !list_lookup_fmap, Hx.
Qed.

(** An entry that is as specified stays so when another row is written. *)
Lemma chain_entry_ok_set1 rows rows' wind row t zl :
  set1 rows wind row = Some rows' →
  (1 ≤ t < wind)%nat →
  chain_entry_ok priors worker_labels worker_prob_trust rows t zl →
  chain_entry_ok priors worker_labels worker_prob_trust rows' t zl.
Proof.
  intros Hset Ht (pl & wl & pt & prior & H1 & H2 & H3 & H4 & H).
  exists pl, wl, pt, prior. do 4 (split; [done|]). cbv zeta in *.
  assert (Hsame : ∀ i, i ≠ wind → rows' !! i = rows !! i).
  { intros i Hi. rewrite (set1_lookup _ _ _ _ i Hset).
    by rewrite decide_False. }
  unfold get2 in *. rewrite (Hsame t) by lia.
  case_decide; [done|].
  destruct H as (prev_row & ppr & x & ? & ? & ? & ?).
  exists prev_row, ppr, x. rewrite (Hsame (t - 1)%nat) by lia. done.
Qed.

Lemma response_rows_loop m : ∀ a rows,
  (2 ≤ a)%nat → (a + m = Nat.max 2 (length worker_labels))%nat →
  chain_rows_ok num_nodes (length worker_labels) priors worker_labels
    worker_prob_trust a rows →
  ∃ rows',
    foldlM (response_row_step num_nodes priors worker_labels worker_prob_trust)
           rows (seq a m) = Some rows'
    ∧ chain_rows_ok num_nodes (length worker_labels) priors worker_labels
        worker_prob_trust (a + m) rows'.
Proof using trust_length labels_in_range.
  induction m as [|m IH]; intros a rows Ha Ham Hinv.
  - exists rows. split; [done|]. by rewrite Nat.add_0_r.
  - destruct Hinv as (Hlen & Hshape & Hspec).
    assert (a < length worker_labels)%nat as Hlt by lia.
    destruct (label_lookup (a - 1)) as (pl & _ & _ & Hpl & _ & _ & Hplt); [lia|].
    destruct (label_lookup a) as (wl & pt & prior & Hwl & Hpt & Hprior & _);
      [lia|].
    destruct (lookup_lt_is_Some_2 rows (a - 1)) as [prev_row Hprev]; [lia|].
    pose proof (Hshape _ _ Hprev) as Lprev.
    destruct (lookup_lt_is_Some_2 prev_row pl) as [ppr Hppr]; [lia|].
    assert (∃ row, next_response_row num_nodes priors prev_row pl wl pt
                   = Some row) as [row Hrow].
    { unfold next_response_row. rewrite Hprior, Hppr. simpl.
      unfold set1. rewrite lookup_replicate_2 by done. simpl. eauto. }
    assert (∃ rows1, set1 rows a row = Some rows1) as [rows1 Hset].
    { unfold set1. destruct (lookup_lt_is_Some_2 rows a) as [? ->]; [lia|].
      simpl. eauto. }
    destruct (IH (S a) rows1) as (rows' & Hrun & Hinv'); [lia | lia | |].
    + split; [|split].
      * rewrite (set1_length _ _ _ _ Hset). done.
      * intros i r Hr. rewrite (set1_lookup _ _ _ _ i Hset) in Hr.
        case_decide; [|by eapply Hshape]. injection Hr as <-.
        destruct (next_response_row_lookup _ _ _ _ _ 0%nat Hrow Lprev)
          as (? & ? & ? & ? & ? & ? & ? & ?); [lia|done].
      * intros t zl Ht Hzl.
        destruct (decide (t = a)) as [->|Hne].
        -- destruct (next_response_row_lookup _ _ _ _ _ zl Hrow Lprev Hzl)
             as (prior' & ppr' & x & Hprior' & Hppr' & Hx & _ & Hentry).
           exists pl, wl, pt, prior. do 4 (split; [done|]). cbv zeta.
           rewrite decide_False by lia.
           assert (prior' = prior) as -> by congruence.
           exists prev_row, ppr', x.
           rewrite (set1_lookup _ _ _ _ (a - 1)%nat Hset).
           rewrite decide_False by lia. do 3 (split; [done|]).
           unfold get2. rewrite (set1_lookup _ _ _ _ a Hset).
           rewrite decide_True by done. simpl. exact Hentry.
        -- apply (chain_entry_ok_set1 rows rows1 a row); [done | lia |].
           apply Hspec; [lia | done].
    + exists rows'. split.
      * assert (Hstep : response_row_step num_nodes priors worker_labels
                          worker_prob_trust rows a = Some rows1).
        { unfold response_row_step.
          rewrite Hpl, Hwl, Hpt, Hprev. cbn [mbind option_bind].
          rewrite Hrow. cbn [mbind option_bind]. exact Hset. }
        cbn [seq foldlM]. rewrite Hstep. exact Hrun.
      * by replace (a + S m)%nat with (S a + m)%nat by lia.
Qed.

(** C3, as stated, fails: with the priors 0.3 and 0.7 of A and B, and two
    workers who both report A, the entry of the second worker at the
    label B is (1 - pt) times the prior of A, the label that the worker
    reported, not the prior of B. *)
Lemma C3_prior_is_not_that_of_z :
  ∃ rows v,
    prob_prior_responses 3 [1; 3/10; 7/10] [1; 1]%nat [4/5; 4/5] = Some rows
    ∧ get2 rows 1 2 = Some v
    ∧ v = (1 - 4/5) * (3/10)
    ∧ v ≠ (1 - 4/5) * (7/10).
Proof.
  eexists _, _. split; [reflexivity|]. split; [reflexivity|].
  unfold response_given. simpl. split; lra.
Qed.

(** C3 (amended): in [predict_true_labels], for every worker position
    [t >= 1] and every node [z], the chain value is built from the
    per-node probability that is the trust [pt] of worker [t] when [z] is
    the label of the worker before, and [(1 - pt)] times the prior of the
    label that worker [t] itself reported otherwise (the same number for
    every such [z]).  The row of [t = 1] holds this probability; the row
    of [t >= 2] holds it times the entry of the row before at the previous
    label, divided by [pt * x + sum (ppnt * y) - ppnt * x], where [x] is
    the entry of the row before at [z] and [y] ranges over that row. *)
Theorem C3_prior_response_chain :
  ∃ rows,
    prob_prior_responses num_nodes priors worker_labels worker_prob_trust
      = Some rows
    ∧ ∀ t zl, (1 ≤ t < length worker_labels)%nat → (zl < num_nodes)%nat →
        chain_entry_ok priors worker_labels worker_prob_trust rows t zl.
Proof using trust_length labels_in_range.
  unfold prob_prior_responses.
  set (W := length worker_labels).
  set (rows0 := replicate W (replicate num_nodes 1)).
  case_decide as HW.
  2:{ exists rows0. split; [done|]. intros; lia. }
  destruct (label_lookup 0%nat) as (pl & _ & _ & Hpl & _ & _ & _);
    [unfold W in HW; lia|].
  destruct (label_lookup 1%nat) as (wl & pt & prior & Hwl & Hpt & Hprior & _);
    [unfold W in HW; lia|].
  rewrite Hpl, Hwl, Hpt. simpl.
  assert (∃ row, first_response_row num_nodes priors pl wl pt = Some row)
    as [row Hrow].
  { unfold first_response_row. rewrite Hprior. simpl. eauto. }
  rewrite Hrow. simpl.
  assert (∃ rows1, set1 rows0 1 row = Some rows1) as [rows1 Hset].
  { unfold set1, rows0. rewrite lookup_replicate_2 by done. simpl. eauto. }
  rewrite Hset. simpl.
  destruct (response_rows_loop (W - 2) 2 rows1) as (rows' & Hrun & Hinv);
    [lia | unfold W in *; lia | |].
  - split; [|split].
    + rewrite (set1_length _ _ _ _ Hset). apply length_replicate.
    + intros i r Hr. rewrite (set1_lookup _ _ _ _ i Hset) in Hr.
      case_decide.
      * injection Hr as <-.
        unfold first_response_row in Hrow. rewrite Hprior in Hrow.
        injection Hrow as <-. unfold xrange.
        by rewrite length_fmap, length_seq.
      * apply lookup_replicate in Hr as [-> _]. apply length_replicate.
    + intros t zl Ht Hzl. assert (t = 1%nat) as -> by lia.
      destruct (first_response_row_lookup _ _ _ _ zl Hrow Hzl)
        as (prior' & Hprior' & _ & Hentry).
      assert (prior' = prior) as -> by congruence.
      exists pl, wl, pt, prior. do 4 (split; [done|]). cbv zeta.
      rewrite decide_True by done.
      unfold get2. rewrite (set1_lookup _ _ _ _ 1%nat Hset).
      rewrite decide_True by done. simpl. exact Hentry.
  - exists rows'. split; [exact Hrun|].
    destruct Hinv as (_ & _ & Hspec). intros t zl Ht Hzl.
    apply Hspec; [unfold W in *; lia | done].
Qed.
End PriorResponses.

Lemma C3_prior_response_chain_witness :
  length [4/5; 4/5; 1/2]%R = length [1; 2; 1]
  ∧ Forall (λ l, l < 3 ∧ is_Some ([1; 3/10; 7/10]%R !! l)) [1; 2; 1]
  ∧ ∃ rows,
      prob_prior_responses 3 [1; 3/10; 7/10]%R [1; 2; 1] [4/5; 4/5; 1/2]%R
        = Some rows
      ∧ ∀ t zl, 1 ≤ t < 3 → zl < 3 →
          chain_entry_ok [1; 3/10; 7/10]%R [1; 2; 1] [4/5; 4/5; 1/2]%R
            rows t zl.
Proof.
  assert (H1 : length [4/5; 4/5; 1/2]%R = length [1; 2; 1]) by reflexivity.
  assert (H2 : Forall (λ l, l < 3 ∧ is_Some ([1; 3/10; 7/10]%R !! l))
                      [1; 2; 1]).
  { repeat constructor; simpl; eauto. }
  split; [exact H1|]. split; [exact H2|].
  exact (C3_prior_response_chain 3 [1; 3/10; 7/10]%R [1; 2; 1]
           [4/5; 4/5; 1/2]%R H1 H2).
Defined.

(** ** The skill of a worker without history *)
Section ZeroHistory.
Local Open Scope R_scope.
Local Transparent gmap_empty.

Lemma odict_lookup_index {A} k (d : list (string * A)) :
  is_Some (odict_lookup k d) → is_Some (odict_index k d).
Proof.
  unfold odict_lookup, odict_index. intros [x Hx].
  destruct (list_find _ d); [eauto | done].
Qed.

Lemma odict_index_lt {A} k (d : list (string * A)) i :
  odict_index k d = Some i → (i < length d)%nat.
Proof.
  unfold odict_index. intros H.
  destruct (list_find _ d) as [[j x]|] eqn:E; [|done].
  injection H as <-. apply list_find_Some in E as (E & _).
  by eapply lookup_lt_Some.
Qed.

(** Images with at most one annotation leave the counts untouched. *)
Lemma skill_counts_no_history (p : Params) self_id imgs st :
  Forall (λ img, (length (z img) ≤ 1)%nat) imgs →
  foldlM (skill_counts_step p self_id) st imgs = Some st.
Proof.
  induction 1 as [|img imgs Himg _ IH]; [done|].
  assert (skill_counts_step p self_id st img = Some st) as Hstep.
  { unfold skill_counts_step. by rewrite decide_True. }
  cbn [foldlM]. rewrite Hstep. exact IH.
Qed.

Lemma total_num_correct_total self_id imgs : ∀ total,
  Forall (λ img, is_Some (y img) ∧ is_Some (odict_lookup self_id (z img)))
         imgs →
  is_Some (foldlM (total_num_correct_step self_id) total imgs).
Proof.
  induction imgs as [|img imgs IH]; intros total Hall; [by eexists|].
  apply Forall_cons in Hall as [[[yl Hy] [anno Hz]] Hall].
  assert (is_Some (total_num_correct_step self_id total img)) as [t1 Hstep].
  { unfold total_num_correct_step. rewrite Hy, Hz. by eexists. }
  cbn [foldlM]. rewrite Hstep. by apply IH.
Qed.

(** With at most one annotation per image the trust counts stay as they
    are: the worker is the first to annotate. *)
Lemma trust_counts_no_history (p : Params) self_id imgs st :
  Forall (λ img, (length (z img) ≤ 1)%nat
                 ∧ is_Some (odict_lookup self_id (z img))) imgs →
  foldlM (trust_step p self_id) st imgs = Some st.
Proof.
  induction 1 as [|img imgs [Hlen Hin] _ IH]; [done|]. cbn [foldlM].
  assert (trust_step p self_id st img = Some st) as ->; [|exact IH].
  unfold trust_step. destruct Hin as [anno Hanno]. rewrite Hanno. simpl.
  destruct (recursive_trust p).
  - destruct (odict_lookup_index self_id (z img)) as [i Hi]; [by eexists|].
    rewrite Hi. simpl. apply odict_index_lt in Hi.
    rewrite decide_False by lia. done.
  - f_equal. unfold odict_lookup in Hanno.
    destruct (list_find _ (z img)) as [[j kv]|] eqn:E; [|done].
    apply list_find_Some in E as (E & Hk & _).
    destruct (z img) as [|[k a] [|??]]; simpl in *; [done| |lia].
    destruct j; [|done]. injection E as <-. simpl in Hk.
    by rewrite decide_True.
Qed.

Lemma smoothed_without_counts (beta x : R) :
  0.00000001 <= beta →
  np_clip ((beta * x + 0) / np_clip_min (beta + 0) 0.00000001)
          0.00000001 0.99999
  = np_clip x 0.00000001 0.99999.
Proof.
  intros Hbeta. unfold np_clip_min. rewrite Rmax_left by lra.
  f_equal. field. lra.
Qed.

Lemma skill_vector_without_counts (p : Params) (x : R) (n : nat) :
  0.00000001 <= prob_correct_beta p →
  pooled_prob_correct_vector p = replicate n x →
  skill_vector_of_counts p (replicate n 0, replicate n 0)
  = replicate n (np_clip x 0.00000001 0.99999).
Proof.
  intros Hbeta Hpooled. unfold skill_vector_of_counts. rewrite Hpooled.
  cbn [fst snd].
  rewrite !fmap_replicate, !zip_with_replicate, fmap_replicate.
  by rewrite smoothed_without_counts.
Qed.

(** C5, as stated, fails: with [prob_correct = 0.7] and
    [prob_correct_prior = 0.8] a worker without images gets the skill 0.8
    at the root, while the default skill vector holds 0.7. *)
Lemma C5_zero_history_is_not_the_default :
  let p := params_AB (1/2) (1/2) (7/10) (8/10) in
  let w := new_worker "w1" [1/2] [] in
  ∃ w' sv,
    initialize_data_structures p = Some (flat_index p)
    ∧ estimate_parameters p w = Some w'
    ∧ skill_vector w' = Some sv
    ∧ sv !! 0%nat = Some (8/10)
    ∧ default_skill_vector p !! 0%nat = Some (7/10)
    ∧ skill_vector (initialize_parameters_worker p false false w)
      = Some (default_skill_vector p)
    ∧ sv ≠ default_skill_vector p.
Proof.
  intros p w. eexists _, _.
  split; [vm_compute; reflexivity|].
  split; [rsimpl; reflexivity|]. split; [reflexivity|].
  assert (E : np_clip ((10 * (1 * (8 / 10)) + 0) / np_clip_min (10 + 0) 0.00000001)
                0.00000001 0.99999 = 8/10).
  { replace (1 * (8/10)) with (8/10) by lra.
    rewrite smoothed_without_counts by lra.
    unfold np_clip. rewrite Rmax_left, Rmin_left by lra. reflexivity. }
  split; [simpl; f_equal; exact E|].
  split; [simpl; f_equal; lra|].
  split; [reflexivity|].
  rewrite E. simpl. intros Heq. injection Heq as Heq. lra.
Qed.

(** C5 (amended): after [estimate_parameters] runs on a worker none of
    whose images has more than one annotation, with
    [prob_correct_beta >= 1e-8], every entry of the skill vector is
    [prob_correct_prior] clipped to [1e-8, 0.99999] (the pooled vector);
    this is the default skill vector when [prob_correct] is that number,
    as with the default values 0.8 and 0.8. *)
Theorem C5_zero_history_skill (d : Dataset) (idx : FlatIndex) (w : Worker) :
  let p := {| dataset := d; flat_index := idx |} in
  let pooled := np_clip (1 * prob_correct_prior d) 0.00000001 0.99999 in
  initialize_data_structures d = Some idx →
  0.00000001 <= prob_correct_beta d →
  (model_worker_trust d = true → prob_trust_beta d ≠ 0) →
  Forall (λ img, (length (z img) ≤ 1)%nat
                 ∧ is_Some (y img)
                 ∧ is_Some (odict_lookup (worker_id w) (z img)))
         (images w) →
  ∃ w',
    estimate_parameters p w = Some w'
    ∧ skill_vector w'
      = Some (replicate (num_inner_nodes (taxonomy d)) pooled)
    ∧ (pooled = 1 * prob_correct d →
       skill_vector w' = Some (default_skill_vector idx)).
Proof.
  intros p pooled Hinit Hbeta Htrust Himgs.
  apply initialize_data_structures_inv in Hinit
    as (_ & _ & _ & _ & _ & _ & _ & _ & _ & _ & Hdefault & Hpooled).
  assert (Hcounts : skill_counts p w
          = Some (replicate (length (pooled_prob_correct_vector p)) 0,
                  replicate (length (pooled_prob_correct_vector p)) 0)).
  { unfold skill_counts. apply skill_counts_no_history.
    eapply Forall_impl; [exact Himgs|]. by intros ? (? & _). }
  destruct (total_num_correct_total (worker_id w) (images w) 0)
    as [total Htotal].
  { eapply Forall_impl; [exact Himgs|]. by intros ? (_ & ? & ?). }
  assert (Hsv : skill_vector_of_counts p
            (replicate (length (pooled_prob_correct_vector p)) 0,
             replicate (length (pooled_prob_correct_vector p)) 0)
          = replicate (num_inner_nodes (taxonomy d)) pooled).
  { simpl pooled_prob_correct_vector. rewrite Hpooled, length_replicate.
    apply skill_vector_without_counts; done. }
  unfold estimate_parameters. rewrite Hcounts. cbn [mbind option_bind].
  rewrite Htotal. cbn [mbind option_bind]. rewrite Hsv.
  destruct (model_worker_trust p) eqn:Emwt.
  - rewrite trust_counts_no_history.
    2:{ eapply Forall_impl; [exact Himgs|]. by intros ? (? & _ & ?). }
    cbn [mbind option_bind]. unfold py_div.
    destruct (Req_dec_T (prob_trust_beta p) 0) as [Hz|_];
      [by destruct (Htrust Emwt)|].
    cbn [mbind option_bind]. eexists. split; [reflexivity|]. simpl.
    split; [done|]. intros ->. by rewrite Hdefault.
  - eexists. split; [reflexivity|]. simpl.
    split; [done|]. intros ->. by rewrite Hdefault.
Qed.

Lemma C5_zero_history_skill_witness :
  let d := dataset_AB (1/2) (1/2) 0.8 0.8 in
  let idx := index_AB (1/2) (1/2) 0.8 0.8 in
  let w := new_worker "w1" [1/2] [image_only_w1] in
  let pooled := np_clip (1 * 0.8) 0.00000001 0.99999 in
  initialize_data_structures d = Some idx
  ∧ 0.00000001 <= prob_correct_beta d
  ∧ (model_worker_trust d = true → prob_trust_beta d ≠ 0)
  ∧ Forall (λ img, (length (z img) ≤ 1)%nat
                   ∧ is_Some (y img)
                   ∧ is_Some (odict_lookup (worker_id w) (z img)))
           (images w)
  ∧ ∃ w',
      estimate_parameters {| dataset := d; flat_index := idx |} w = Some w'
      ∧ skill_vector w' = Some (replicate 1 pooled)
      ∧ (pooled = 1 * 0.8 → skill_vector w' = Some (default_skill_vector idx)).
Proof.
  intros d idx w pooled.
  assert (H2 : 0.00000001 <= prob_correct_beta d) by (simpl; lra).
  assert (H2' : model_worker_trust d = true → prob_trust_beta d ≠ 0)
    by discriminate.
  assert (H3 : Forall (λ img, (length (z img) ≤ 1)%nat
                              ∧ is_Some (y img)
                              ∧ is_Some (odict_lookup (worker_id w) (z img)))
                      (images w)).
  { repeat constructor; simpl; eauto. }
  assert (H1 : initialize_data_structures d = Some idx)
    by (vm_compute; reflexivity).
  split; [exact H1|]. split; [exact H2|]. split; [exact H2'|].
  split; [exact H3|].
  exact (C5_zero_history_skill d idx w H1 H2 H2' H3).
Defined.
End ZeroHistory.

(** ** The counts behind the skill estimate *)
Section SkillCounts.
Local Open Scope R_scope.
Local Transparent gmap_empty.

Lemma filter_none {A} (P : A → Prop) `{∀ x, Decision (P x)} (l : list A) :
  (∀ x, x ∈ l → ¬ P x) → filter P l = [].
Proof.
  induction l as [|x l IH]; intros Hno; [done|].
  rewrite filter_cons_False by (apply Hno; left).
  apply IH. intros y Hy. apply Hno. by right.
Qed.

(** A sequence of writes [v[i] = x]. *)
Lemma foldlM_set1_spec (ws : list (nat * R)) : ∀ v v',
  foldlM (λ v iv, set1 v iv.1 iv.2) v ws = Some v' →
  length v' = length v
  ∧ (∀ n, (∀ w, w ∈ ws → w.1 ≠ n) → v' !! n = v !! n)
  ∧ (∀ n x, (∀ w, w ∈ ws → w.1 = n → w.2 = x) →
            (∃ w, w ∈ ws ∧ w.1 = n) → v' !! n = Some x).
Proof.
  induction ws as [|w ws IH]; intros v v' Hrun; simpl in Hrun.
  - injection Hrun as <-. split; [done|]. split; [done|].
    intros n x _ (w & Hw & _). by apply elem_of_nil in Hw.
  - apply bind_Some in Hrun as (v1 & Hset & Hrun).
    destruct (IH _ _ Hrun) as (L & Hno & Hyes).
    pose proof (set1_length _ _ _ _ Hset) as L1.
    split; [congruence|]. split.
    + intros n Hn. rewrite Hno by (intros; apply Hn; by right).
      rewrite (set1_lookup _ _ _ _ n Hset).
      rewrite decide_False; [done|]. apply Hn. left.
    + intros n x Hval Hex.
      destruct (decide (Exists (λ w', w'.1 = n) ws)) as [Hlater|Hnone].
      * apply Hyes; [intros; apply Hval; [by right|done]|].
        by apply Exists_exists in Hlater.
      * rewrite Hno.
        2:{ intros w' Hw' Heq. apply Hnone, Exists_exists. eauto. }
        rewrite (set1_lookup _ _ _ _ n Hset).
        destruct Hex as (w' & Hw' & Heq).
        apply elem_of_cons in Hw' as [->|Hw'].
        -- rewrite decide_True by done. f_equal. apply Hval; [left|done].
        -- exfalso. apply Hnone, Exists_exists. eauto.
Qed.

(** [v[idx] += 1] adds one at the listed positions, once each. *)
Lemma fancy_incr_lookup (v : list R) idx v' :
  fancy_incr v idx = Some v' →
  length v' = length v
  ∧ ∀ n c, v !! n = Some c →
      v' !! n = Some (if decide (n ∈ idx) then c + 1 else c).
Proof.
  unfold fancy_incr, fancy_assign1. intros H.
  apply bind_Some in H as (old & Hold & H).
  pose proof (fancy_read_length _ _ _ Hold) as Lold.
  rewrite np_broadcast_to_same in H by (by rewrite length_fmap).
  simpl in H. apply foldlM_set1_spec in H as (L & Hno & Hyes).
  split; [done|]. intros n c Hc.
  assert (Hws : ∀ w, w ∈ zip idx ((λ x, x + 1) <$> old) →
                     w.1 ∈ idx ∧ ∃ x, v !! w.1 = Some x ∧ w.2 = x + 1).
  { intros w Hw. apply list_elem_of_lookup in Hw as [k Hk].
    apply lookup_zip_with_Some in Hk as (i & x1 & -> & Hi & Hx1).
    rewrite list_lookup_fmap in Hx1.
    destruct (fancy_read_lookup _ _ _ _ _ Hold Hi) as (x & Hx & Hv).
    rewrite Hx in Hx1. injection Hx1 as <-. simpl.
    split; [by eapply list_elem_of_lookup_2 | eauto]. }
  case_decide as Hin.
  - apply Hyes.
    + intros w Hw Heq. destruct (Hws w Hw) as (_ & x & Hx & ->).
      rewrite Heq in Hx. congruence.
    + apply list_elem_of_lookup in Hin as [k Hk].
      destruct (fancy_read_lookup _ _ _ _ _ Hold Hk) as (x & Hx & Hv).
      exists (n, x + 1). split; [|done].
      apply list_elem_of_lookup. exists k. apply lookup_zip_with_Some.
      exists n, (x + 1). by rewrite list_lookup_fmap, Hx.
  - rewrite Hno; [done|]. intros w Hw Heq. apply Hin.
    destruct (Hws w Hw) as (? & _). congruence.
Qed.

Lemma incr1_lookup (v : list R) i v' :
  incr1 v i = Some v' →
  length v' = length v
  ∧ ∀ n c, v !! n = Some c →
      v' !! n = Some (if decide (n = i) then c + 1 else c).
Proof.
  unfold incr1. intros H. apply bind_Some in H as (x & Hx & Hset).
  split; [by eapply set1_length|]. intros n c Hc.
  rewrite (set1_lookup _ _ _ _ n Hset).
  destruct (decide (i = n)) as [->|Hne].
  - rewrite decide_True by done. congruence.
  - rewrite decide_False by done. done.
Qed.

(** The traversal adds one to the count of [n] at each matching child
    whose parent is [n]. *)
Lemma count_matching_children_spec yl zl m : ∀ a num num',
  count_matching_children yl zl (seq a m) num = Some num' →
  length num' = length num
  ∧ ∀ n c, num !! n = Some c →
      num' !! n
      = Some (c + INR (length (matching_children yl zl n (seq a m)))).
Proof.
  induction m as [|m IH]; intros a num num' Hrun.
  - injection Hrun as <-. split; [done|]. intros n c Hc.
    simpl. rewrite Hc. f_equal. lra.
  - cbn [seq count_matching_children] in Hrun.
    apply bind_Some in Hrun as (yp & Hyp & Hrun).
    unfold matching_children. cbn [seq].
    case_decide as Hlt.
    + apply bind_Some in Hrun as (yn & Hyn & Hrun).
      apply bind_Some in Hrun as (zn & Hzn & Hrun).
      apply bind_Some in Hrun as (num1 & Hnum1 & Hrun).
      destruct (IH _ _ _ Hrun) as (L & Hspec).
      assert (length num1 = length num
              ∧ ∀ n c, num !! n = Some c →
                  num1 !! n
                  = Some (if decide (yn = zn ∧ n = yp) then c + 1 else c))
        as (L1 & H1).
      { case_decide as Heq.
        - apply incr1_lookup in Hnum1 as (L1 & H1). split; [done|].
          intros n c Hc. rewrite (H1 n c Hc).
          destruct (decide (n = yp)).
          + by rewrite decide_True.
          + rewrite decide_False; [done|]. by intros [_ ?].
        - injection Hnum1 as <-. split; [done|]. intros n c Hc.
          rewrite decide_False; [done|]. by intros [? _]. }
      split; [congruence|]. intros n c Hc.
      rewrite (Hspec n _ (H1 n c Hc)). f_equal.
      unfold matching_children.
      destruct (decide (yn = zn ∧ n = yp)) as [[-> ->]|Hne].
      * rewrite filter_cons_True by (rewrite Hyn, Hzn; done).
        cbn [length]. rewrite S_INR. lra.
      * rewrite filter_cons_False; [done|].
        intros (_ & Hp & Hc'). apply Hne. split; congruence.
    + injection Hrun as <-. split; [done|]. intros n c Hc. rewrite Hc.
      f_equal.
      assert (filter (λ ci, (ci < length zl)%nat
                            ∧ yl !! (ci - 1)%nat = Some n
                            ∧ yl !! ci = zl !! ci) (a :: seq (S a) m) = [])
        as ->; [|simpl; lra].
      apply filter_none. intros ci Hci (Hci' & _).
      change (a :: seq (S a) m) with (seq a (S m)) in Hci.
      apply elem_of_seq in Hci. lia.
Qed.

Lemma filter_at_most_one {A} (P : A → Prop) `{∀ x, Decision (P x)} (l : list A) :
  NoDup l →
  (∀ x x', x ∈ l → x' ∈ l → P x → P x' → x = x') →
  length (filter P l) = if decide (Exists P l) then 1%nat else 0%nat.
Proof.
  induction 1 as [|x l Hx Hnd IH]; intros Huniq.
  - rewrite decide_False; [done|]. by intros ?%Exists_nil.
  - destruct (decide (P x)) as [Hp|Hnp].
    + rewrite filter_cons_True by done.
      rewrite decide_True by (by left). simpl. f_equal.
      apply length_zero_iff_nil, filter_none.
      intros x' Hx' Hp'. apply Hx.
      rewrite (Huniq x x'); [done | left | by right | done | done].
    + rewrite filter_cons_False by done. rewrite IH.
      * destruct (decide (Exists P l)) as [He|Hne].
        -- rewrite decide_True; [done | by right].
        -- rewrite decide_False; [done|].
           intros [?|?]%Exists_cons; done.
      * intros y y' ? ?. apply Huniq; by right.
Qed.

Lemma agrees_through_child_spec yl zl n :
  agrees_through_child yl zl n = true
  ↔ ∃ i, yl !! i = Some n ∧ is_Some (yl !! S i)
         ∧ take (S (S i)) yl = take (S (S i)) zl.
Proof.
  unfold agrees_through_child. rewrite existsb_exists. split.
  - intros (i & _ & Hi).
    apply andb_prop in Hi as [Hi H3]. apply andb_prop in Hi as [H1 H2].
    apply bool_decide_eq_true in H1, H2, H3. eauto.
  - intros (i & H1 & H2 & H3). exists i. split.
    + apply in_seq. apply lookup_lt_Some in H1. lia.
    + by rewrite !bool_decide_eq_true_2.
Qed.

(** On the paths of a tree the traversal finds at most one matching
    child below [n], and finds it exactly when the two paths agree up to
    and including that child. *)
Lemma matching_children_tree yl zl n :
  NoDup yl →
  (∀ i m, yl !! i = Some m → zl !! i = Some m →
          take (S i) yl = take (S i) zl) →
  length (matching_children yl zl n (seq 1 (length yl - 1)))
  = if agrees_through_child yl zl n then 1%nat else 0%nat.
Proof.
  intros Hnd Hcons. unfold matching_children.
  rewrite filter_at_most_one.
  - destruct (agrees_through_child yl zl n) eqn:E.
    + apply agrees_through_child_spec in E as (i & H1 & [m H2] & H3).
      rewrite decide_True; [done|]. apply Exists_exists. exists (S i).
      split; [|split; [|split]].
      * apply elem_of_seq. apply lookup_lt_Some in H2. lia.
      * apply lookup_lt_Some in H2.
        assert (length (take (S (S i)) zl) = S (S i)) as Hl.
        { rewrite <- H3, length_take. lia. }
        rewrite length_take in Hl. lia.
      * by replace (S i - 1)%nat with i by lia.
      * rewrite <- (lookup_take_lt yl (S (S i)) (S i)) by lia.
        rewrite <- (lookup_take_lt zl (S (S i)) (S i)) by lia.
        by rewrite H3.
    + rewrite decide_False; [done|]. intros Hex.
      apply Exists_exists in Hex as (ci & Hci & Hlt & Hp & Hc).
      apply elem_of_seq in Hci.
      assert (agrees_through_child yl zl n = true); [|congruence].
      apply agrees_through_child_spec. exists (ci - 1)%nat.
      replace (S (ci - 1)) with ci by lia.
      destruct (lookup_lt_is_Some_2 yl ci) as [m Hm]; [lia|].
      split; [done|]. split; [by eexists|].
      apply Hcons with (m := m); [done | congruence].
  - apply NoDup_seq.
  - intros ci ci' Hci Hci' (_ & Hp & _) (_ & Hp' & _).
    apply elem_of_seq in Hci, Hci'.
    pose proof (NoDup_lookup _ _ _ _ Hnd Hp Hp'). lia.
Qed.

Lemma count_images_cons f img imgs :
  count_images f (img :: imgs)
  = (Nat.b2n (f img) + count_images f imgs)%nat.
Proof.
  unfold count_images. destruct (f img) eqn:E.
  - by rewrite filter_cons_True.
  - rewrite filter_cons_False; [done|]. by rewrite E.
Qed.

(** One image adds one to the counts of the nodes that it counts for. *)
Lemma skill_counts_step_spec (p : Params) self_id num denom img num' denom' :
  paths_of_a_tree (root_to_node_path_list p) →
  skill_counts_step p self_id (num, denom) img = Some (num', denom') →
  length num' = length num
  ∧ length denom' = length denom
  ∧ (∀ n c, denom !! n = Some c →
       denom' !! n = Some (c + INR (Nat.b2n (counts_total p self_id n img))))
  ∧ (∀ n c, num !! n = Some c →
       num' !! n = Some (c + INR (Nat.b2n (counts_correct p self_id n img)))).
Proof.
  intros [Hnd Hcons] Hstep. unfold skill_counts_step in Hstep.
  unfold counts_total, counts_correct, image_paths.
  case_decide as Hlen.
  - injection Hstep as <- <-.
    rewrite bool_decide_eq_false_2 by lia. simpl.
    repeat split; intros n c ->; f_equal; lra.
  - rewrite bool_decide_eq_true_2 by lia.
    apply bind_Some in Hstep as (yl & E1 & Hstep).
    apply bind_Some in Hstep as (yid & E2 & Hstep).
    apply bind_Some in Hstep as (anno & E3 & Hstep).
    apply bind_Some in Hstep as (zid & E4 & Hstep).
    apply bind_Some in Hstep as (ypath & Hy & Hstep).
    apply bind_Some in Hstep as (zpath & Hz & Hstep).
    apply bind_Some in Hstep as (denom1 & Hdenom & Hstep).
    apply bind_Some in Hstep as (num1 & Hnum & Hstep).
    injection Hstep as <- <-. simpl in Hdenom, Hnum.
    rewrite E1. cbn [mbind option_bind]. rewrite E2. cbn [mbind option_bind].
    rewrite E3. cbn [mbind option_bind]. rewrite E4. cbn [mbind option_bind].
    rewrite Hy, Hz. cbn [mbind option_bind andb].
    apply fancy_incr_lookup in Hdenom as (Ld & Hd).
    apply count_matching_children_spec in Hnum as (Ln & Hn).
    split; [done|]. split; [done|]. split.
    + intros n c Hc. rewrite (Hd n c Hc). f_equal. unfold passes_through.
      case_decide.
      * rewrite bool_decide_eq_true_2 by done. simpl. lra.
      * rewrite bool_decide_eq_false_2 by done. simpl. lra.
    + intros n c Hc. rewrite (Hn n c Hc). do 2 f_equal.
      rewrite matching_children_tree.
      * by destruct (agrees_through_child ypath zpath n).
      * by eapply Hnd.
      * intros i m. by eapply Hcons.
Qed.

Lemma skill_counts_loop (p : Params) self_id imgs : ∀ num denom num' denom',
  paths_of_a_tree (root_to_node_path_list p) →
  foldlM (skill_counts_step p self_id) (num, denom) imgs
    = Some (num', denom') →
  (∀ n c, denom !! n = Some c →
     denom' !! n
     = Some (c + INR (count_images (counts_total p self_id n) imgs)))
  ∧ (∀ n c, num !! n = Some c →
       num' !! n
       = Some (c + INR (count_images (counts_correct p self_id n) imgs))).
Proof.
  induction imgs as [|img imgs IH]; intros num denom num' denom' Htree Hrun.
  - injection Hrun as <- <-. split; intros n c ->; f_equal; simpl; lra.
  - cbn [foldlM] in Hrun.
    apply bind_Some in Hrun as ([num1 denom1] & Hstep & Hrun).
    apply skill_counts_step_spec in Hstep as (_ & _ & Hd1 & Hn1); [|done].
    destruct (IH _ _ _ _ Htree Hrun) as (Hd & Hn).
    split; intros n c Hc; rewrite count_images_cons, plus_INR.
    + rewrite (Hd n _ (Hd1 n c Hc)). f_equal. lra.
    + rewrite (Hn n _ (Hn1 n c Hc)). f_equal. lra.
Qed.

(** C4, as stated, fails: an image that only the worker annotated adds
    nothing, although the path of its best label passes through the root
    and the path of the worker agrees with it. *)
Lemma C4_single_annotation_is_not_counted :
  let p := params_one_worker in
  let w := new_worker "w1" [9/10] [image_only_w1] in
  ∃ num denom,
    skill_counts p w = Some (num, denom)
    ∧ image_paths p "w1" image_only_w1 = Some ([0; 1]%nat, [0; 1]%nat)
    ∧ passes_through [0; 1]%nat 0 = true
    ∧ agrees_through_child [0; 1]%nat [0; 1]%nat 0 = true
    ∧ denom !! 0%nat = Some 0
    ∧ num !! 0%nat = Some 0.
Proof.
  intros p w. exists [0], [0]. repeat split; vm_compute; reflexivity.
Qed.

(** C4 (amended): in [estimate_parameters] for a worker, over the index
    of a well-formed taxonomy, for each inner node [n], [count_total[n]]
    is incremented once for every image of the worker that has more than
    one annotation and whose best label's root path passes through [n],
    and [count_correct[n]] once for every such image on which the
    worker's reported path agrees with the best label's path up to and
    including the child of [n]; images with a single annotation are
    skipped. *)
Theorem C4_skill_counts (d : Dataset) (idx : FlatIndex) (w w' : Worker)
    (n : nat) :
  let p := {| dataset := d; flat_index := idx |} in
  taxonomy_wf (taxonomy d) →
  initialize_data_structures d = Some idx →
  estimate_parameters p w = Some w' →
  (n < num_inner_nodes (taxonomy d))%nat →
  ∃ count_correct count_total,
    skill_counts p w = Some (count_correct, count_total)
    ∧ skill_vector w'
      = Some (skill_vector_of_counts p (count_correct, count_total))
    ∧ count_total !! n
      = Some (INR (count_images (counts_total p (worker_id w) n) (images w)))
    ∧ count_correct !! n
      = Some (INR (count_images (counts_correct p (worker_id w) n) (images w))).
Proof.
  intros p Hwf Hinit Hrun Hn.
  pose proof (index_paths_of_a_tree d idx Hwf Hinit) as Htree.
  apply initialize_data_structures_inv in Hinit
    as (_ & _ & _ & _ & _ & _ & _ & _ & _ & _ & _ & Hpooled).
  unfold estimate_parameters in Hrun.
  apply bind_Some in Hrun as ([num denom] & Hcounts & Hrun).
  exists num, denom. split; [done|]. split.
  - apply bind_Some in Hrun as (total & _ & Hrun).
    destruct (model_worker_trust p).
    + apply bind_Some in Hrun as ([??] & _ & Hrun).
      apply bind_Some in Hrun as (ratio & _ & Hrun). by injection Hrun as <-.
    + by injection Hrun as <-.
  - unfold skill_counts in Hcounts.
    destruct (skill_counts_loop p _ _ _ _ _ _ Htree Hcounts) as (Hd & Hc).
    assert (Hlen : (n < length (pooled_prob_correct_vector p))%nat).
    { simpl. by rewrite Hpooled, length_replicate. }
    split.
    + rewrite (Hd n 0) by (by apply lookup_replicate_2). f_equal. lra.
    + rewrite (Hc n 0) by (by apply lookup_replicate_2). f_equal. lra.
Qed.

Lemma C4_skill_counts_witness :
  let d := dataset_AB (1/2) (1/2) 0.8 0.8 in
  let idx := index_AB (1/2) (1/2) 0.8 0.8 in
  let p := {| dataset := d; flat_index := idx |} in
  let w := new_worker "w1" [9/10] [image_two_workers; image_only_w1] in
  taxonomy_wf (taxonomy d)
  ∧ initialize_data_structures d = Some idx
  ∧ (∃ w', estimate_parameters p w = Some w')
  ∧ (0 < num_inner_nodes (taxonomy d))%nat
  ∧ ∃ count_correct count_total,
      skill_counts p w = Some (count_correct, count_total)
      ∧ count_total !! 0%nat
        = Some (INR (count_images (counts_total p "w1" 0) (images w)))
      ∧ count_correct !! 0%nat
        = Some (INR (count_images (counts_correct p "w1" 0) (images w)))
      ∧ count_images (counts_total p "w1" 0) (images w) = 1%nat
      ∧ count_images (counts_correct p "w1" 0) (images w) = 1%nat.
Proof.
  intros d idx p w.
  assert (H0 : taxonomy_wf (taxonomy d)) by apply taxonomy_AB_wf.
  assert (H3 : (0 < num_inner_nodes (taxonomy d))%nat) by (simpl; lia).
  assert (H2 : ∃ w', estimate_parameters p w = Some w').
  { eexists. rsimpl. reflexivity. }
  assert (H1 : initialize_data_structures d = Some idx)
    by (vm_compute; reflexivity).
  split; [exact H0|]. split; [exact H1|]. split; [exact H2|].
  split; [exact H3|].
  destruct H2 as [w' H2].
  destruct (C4_skill_counts d idx w w' 0%nat H0 H1 H2 H3)
    as (cc & ct & E1 & _ & E2 & E3).
  exists cc, ct. split; [exact E1|]. split; [exact E2|]. split; [exact E3|].
  split; vm_compute; reflexivity.
Defined.
End SkillCounts.

(** ** Serialisation of a worker *)

(** C8: for every worker with a skill vector, encoding the worker and
    parsing the encoded data back gives a worker whose skill vector has
    exactly the entries of the original one, whatever the base class
    encodes and parses besides. *)
Theorem C8_skill_vector_round_trip
    (super_encode : Worker → gmap string PyValue)
    (super_parse : Worker → gmap string PyValue → Worker)
    (w fresh : Worker) (sv : list R) :
  skill_vector w = Some sv →
  ∃ w',
    worker_parse super_parse fresh (worker_encode super_encode w) = Some w'
    ∧ skill_vector w' = Some sv.
Proof.
  intros Hsv. unfold worker_parse, worker_encode. rewrite Hsv.
  rewrite lookup_insert_eq. eexists. split; reflexivity.
Qed.

Lemma C8_skill_vector_round_trip_witness :
  let w := new_worker "w1" [9/10; 1/3]%R [] in
  let fresh := {| worker_id := "w1"; skill_vector := None;
                  worker_prob_trust := 0; images := []; prob := None;
                  skill := None |} in
  skill_vector w = Some [9/10; 1/3]%R
  ∧ ∃ w',
      worker_parse (λ w _, w) fresh (worker_encode (λ _, ∅) w) = Some w'
      ∧ skill_vector w' = Some [9/10; 1/3]%R.
Proof.
  intros w fresh.
  assert (H1 : skill_vector w = Some [9/10; 1/3]%R) by reflexivity.
  split; [exact H1|].
  exact (C8_skill_vector_round_trip (λ _, ∅) (λ w _, w) w fresh
           [9/10; 1/3]%R H1).
Defined.

(** ** Determinism and the random generator *)
Section Determinism.
Local Open Scope R_scope.
Local Transparent gmap_empty.

Lemma Counter_last labels l :
  is_Some (Counter (labels ++ [l]) !! l).
Proof.
  unfold Counter. rewrite foldl_app. simpl. rewrite lookup_insert_eq.
  by eexists.
Qed.

Lemma Counter_non_empty labels :
  labels ≠ [] → (0 < size (Counter labels))%nat.
Proof.
  intros Hne.
  destruct (decide (size (Counter labels) = 0%nat)) as [Hz|]; [|lia].
  apply map_size_empty_iff in Hz.
  destruct labels as [|l ls _] using rev_ind; [done|].
  destruct (Counter_last ls l) as [x Hx].
  rewrite Hz, lookup_empty in Hx. done.
Qed.

Lemma most_common_1_is_Some votes :
  (0 < size votes)%nat → is_Some (most_common_1 votes).
Proof.
  intros Hsize. unfold most_common_1.
  destruct (map_to_list votes) as [|kv l] eqn:E.
  - apply map_to_list_empty_iff in E. subst.
    rewrite map_size_empty in Hsize. lia.
  - simpl. generalize kv. clear. induction l as [|x l IH]; intros b; simpl.
    + by eexists.
    + case_decide; apply IH.
Qed.

(** The majority vote consults the generator only in its fallback. *)
Lemma crowdsource_simple_generator (p : Params) avoid g1 g2 img :
  ¬ draws_random_label p (OpCrowdsourceSimple avoid) img →
  ∃ img', crowdsource_simple p avoid g1 img = Some (img', g1)
          ∧ crowdsource_simple p avoid g2 img = Some (img', g2).
Proof.
  intros Hno. unfold crowdsource_simple.
  destruct (avoid && finished img) eqn:E; [eexists; split; reflexivity|].
  simpl in Hno.
  assert (Hex : Exists (λ kv : string * Label,
                          label kv.2 ∈ leaf_node_key_set p) (z img)).
  { destruct (decide (Exists (λ kv : string * Label,
                                label kv.2 ∈ leaf_node_key_set p) (z img)))
      as [?|Hn]; [done|].
    exfalso. apply Hno. split; [done|].
    apply Forall_forall. intros kv Hkv Hin. apply Hn, Exists_exists. eauto. }
  apply Exists_exists in Hex as (kv & Hkv & Hleaf).
  assert (Hne : filter (λ l, l ∈ leaf_node_key_set p)
                       ((λ kv : string * Label, label kv.2) <$> z img) ≠ []).
  { intros Hnil.
    eapply (filter_nil_not_elem_of _ _ (label kv.2) Hnil); [done|].
    apply list_elem_of_fmap. eauto. }
  rewrite !decide_True by (by apply Counter_non_empty).
  destruct (most_common_1_is_Some _ (Counter_non_empty _ Hne)) as [top Htop].
  rewrite Htop. simpl. eexists; split; reflexivity.
Qed.

Lemma Int_part_small (r : R) (k : Z) :
  IZR k <= r < IZR k + 1 → Int_part r = k.
Proof. intros H. symmetry. apply Int_part_spec. lra. Qed.

(** C9, as stated, fails: on an image without annotations the majority
    vote picks the label at random, so two runs on the same image and
    parameters give B with a generator that returns 0 and A with one that
    returns 0.5. *)
Lemma C9_fallback_depends_on_generator :
  let img := new_image "i0" [] in
  ∃ img0 img1 g0 g1,
    crowdsource_simple params_one_worker false (λ _, 0) img = Some (img0, g0)
    ∧ crowdsource_simple params_one_worker false (λ _, 1/2) img
      = Some (img1, g1)
    ∧ label <$> y img0 ≠ label <$> y img1.
Proof.
  intros img.
  assert (E0 : Int_part (0 * INR 2) = 0%Z).
  { apply Int_part_small. simpl. lra. }
  assert (E1 : Int_part (1 / 2 * INR 2) = 1%Z).
  { apply Int_part_small. simpl. lra. }
  eexists _, _, _, _. split; [|split].
  - unfold crowdsource_simple, random_choice, random_random.
    rsimpl. rewrite E0. rsimpl. reflexivity.
  - unfold crowdsource_simple, random_choice, random_random.
    rsimpl. rewrite E1. rsimpl. reflexivity.
  - simpl. discriminate.
Qed.

(** C9 (amended): every operation of an image is a function of the
    image, the parameters and the workers, and leaves the random
    generator as it is, except the fallback of [crowdsource_simple] (no
    annotation names a leaf), which draws its label from the generator;
    [predict_true_labels], also without usable annotations, never
    consults it. *)
Theorem C9_deterministic_unless_random_fallback (p : Params)
    (workers : gmap string Worker) (op : ImageOp) (g1 g2 : RandomState)
    (img : Image) :
  ¬ draws_random_label p op img →
  (λ r : PyResult * Image * RandomState, r.1)
    <$> run_image_op p workers op g1 img
  = (λ r : PyResult * Image * RandomState, r.1)
      <$> run_image_op p workers op g2 img
  ∧ ∀ r, run_image_op p workers op g1 img = Some r → r.2 = g1.
Proof.
  intros Hno. destruct op as [avoid|avoid| |avoid|sf]; simpl.
  - destruct (crowdsource_simple_generator p avoid g1 g2 img Hno)
      as (img' & -> & ->).
    simpl. split; [done|]. by intros ? [= <-].
  - destruct (predict_true_labels p workers avoid img); simpl;
      (split; [done|]); [by intros ? [= <-] | done].
  - destruct (image_compute_log_likelihood p img); simpl;
      (split; [done|]); [by intros ? [= <-] | done].
  - split; [done|]. by intros ? [= <-].
  - destruct (check_finished p sf img). split; [done|]. by intros ? [= <-].
Qed.

Lemma C9_deterministic_unless_random_fallback_witness :
  let img := new_image "i1" [("w1", anno_by "w1" "A")] in
  let op := OpCrowdsourceSimple false in
  ¬ draws_random_label params_one_worker op img
  ∧ (λ r : PyResult * Image * RandomState, r.1)
      <$> run_image_op params_one_worker ∅ op (λ _, 0) img
    = (λ r : PyResult * Image * RandomState, r.1)
        <$> run_image_op params_one_worker ∅ op (λ _, 1/2) img
  ∧ ∀ r, run_image_op params_one_worker ∅ op (λ _, 0) img = Some r →
         r.2 = (λ _, 0).
Proof.
  intros img op.
  assert (H1 : ¬ draws_random_label params_one_worker op img).
  { intros [_ H]. apply Forall_cons in H as [H _]. apply H.
    vm_compute. apply (bool_decide_unpack _). vm_compute. exact I. }
  split; [exact H1|].
  exact (C9_deterministic_unless_random_fallback params_one_worker ∅ op
           (λ _, 0) (λ _, 1/2) img H1).
Defined.
End Determinism.

(** ** The finished flag of an image *)

Lemma crowdsource_simple_finished (p : Params) avoid g img img' g' :
  crowdsource_simple p avoid g img = Some (img', g') →
  finished img' = finished img.
Proof.
  unfold crowdsource_simple. intros H.
  destruct (avoid && finished img); [by injection H as <- <-|].
  case_decide.
  - apply bind_Some in H as (top & _ & H). by injection H as <- <-.
  - apply bind_Some in H as ([pred_y g1] & _ & H). by injection H as <- <-.
Qed.

Lemma predict_true_labels_finished (p : Params) workers avoid img img' :
  predict_true_labels p workers avoid img = Some img' →
  finished img' = finished img.
Proof.
  unfold predict_true_labels. intros H.
  destruct (avoid && finished img && negb (model_worker_trust p));
    [by injection H as <-|].
  apply bind_Some in H as (class_priors & _ & H).
  apply bind_Some in H as (wds & _ & H).
  apply bind_Some in H as (ppr & _ & H).
  apply bind_Some in H as (z' & _ & H).
  destruct (avoid && finished img); [by injection H as <-|].
  apply bind_Some in H as (aps & _ & H).
  apply bind_Some in H as (poa & _ & H).
  apply bind_Some in H as (ami & _ & H).
  apply bind_Some in H as (pid & _ & H).
  apply bind_Some in H as (pred_y & _ & H).
  apply bind_Some in H as (m & _ & H).
  apply bind_Some in H as (u & _ & H).
  by injection H as <-.
Qed.

(** C10: once [finished] is True, [check_finished] returns True at once,
    whatever the risk, and leaves the image as it is; and no operation of
    the image ([check_finished] with either value of [set_finished],
    [crowdsource_simple], [predict_true_labels],
    [compute_log_likelihood], [estimate_parameters]) resets [finished]
    to False. *)
Theorem C10_finished_is_monotone (p : Params) (workers : gmap string Worker)
    (op : ImageOp) (g g' : RandomState) (img img' : Image) (r : PyResult) :
  finished img = true →
  run_image_op p workers op g img = Some (r, img', g') →
  finished img' = true
  ∧ ∀ set_finished, op = OpCheckFinished set_finished →
      r = RetBool true ∧ img' = img.
Proof.
  intros Hfin Hrun. destruct op as [avoid|avoid| |avoid|sf]; simpl in Hrun.
  - apply bind_Some in Hrun as ([img1 g1] & Hop & Hrun).
    injection Hrun as _ <- _. split; [|done].
    by rewrite (crowdsource_simple_finished _ _ _ _ _ _ Hop).
  - apply bind_Some in Hrun as (img1 & Hop & Hrun).
    injection Hrun as _ <- _. split; [|done].
    by rewrite (predict_true_labels_finished _ _ _ _ _ Hop).
  - apply bind_Some in Hrun as (ll & _ & Hrun).
    by injection Hrun as _ <- _.
  - by injection Hrun as _ <- _.
  - unfold check_finished in Hrun. rewrite Hfin in Hrun.
    injection Hrun as <- <- _. split; [done|].
    intros sf' _. done.
Qed.

Lemma C10_finished_is_monotone_witness :
  let img := {| image_id := "i1"; z := []; y := None; risk := 1%R;
                finished := true; cv_pred := None |} in
  finished img = true
  ∧ run_image_op params_one_worker ∅ (OpCheckFinished true) (λ _, 0%R) img
    = Some (RetBool true, img, λ _, 0%R)
  ∧ finished img = true
  ∧ ∀ set_finished, OpCheckFinished true = OpCheckFinished set_finished →
      RetBool true = RetBool true ∧ img = img.
Proof.
  intros img.
  assert (H1 : finished img = true) by reflexivity.
  assert (H2 : run_image_op params_one_worker ∅ (OpCheckFinished true)
                 (λ _, 0%R) img = Some (RetBool true, img, λ _, 0%R))
    by reflexivity.
  split; [exact H1|]. split; [exact H2|].
  exact (C10_finished_is_monotone params_one_worker ∅ (OpCheckFinished true)
           (λ _, 0%R) (λ _, 0%R) img img (RetBool true) H1 H2).
Defined.
